(** * The PR agent ([scripts/pr_agent.py]): model and verified properties

    The agent walks over the open pull requests of a repository.  For each
    one it classifies the check runs of the head commit, converges the CI
    label, upserts one marked status comment and, when allowed, asks for a
    squash merge.

    The development is organised as follows.
    - [Classifier]: the pure part of [_ci_status] (lines 124-136).
    - Section [Agent]: the effectful code, written in a small monad whose
      computations make calls over an arbitrary transport and leave a
      transcript of calls and log lines.  A call is answered, with a body
      or with an HTTP error status, or it raises; the program catches the
      HTTP error and nothing else.
    - Section [Answered]: the procedures on a platform that answers every
      call; Section [Raising]: the procedures on any transport.
    - [GitHub]: a reference model of the hosting platform, used for the
      properties that speak about the state left on the platform.
    - [Scenario], [CommentUpsert] and [Runs]: concrete platform states, the
      comment upsert on the reference platform, and runs of [main].
    - [Verdicts], Sections [Conversations] and [WholeRuns], and [OnGitHub]:
      further properties of the classifier, of the calls a procedure makes,
      of whole runs, and of the procedures on the reference platform. *)

From stdpp Require Import gmap strings list pretty.

Local Open Scope Z_scope.

(* stdpp's solvers clear hypotheses by name; the notice is of no use here. *)
#[local] Set Warnings "-clear-no-such-hyp".

(** ** Configuration constants (lines 35-42) *)

Definition _API : string := "https://api.github.com".
Definition _BOT_COMMENT_MARKER : string := "<!-- pr-agent-bot -->".

Definition _LABEL_PASSING : string := "ci-passing".
Definition _LABEL_FAILING : string := "ci-failing".
Definition _LABEL_NEEDS_REVIEW : string := "needs-review".
Definition _LABEL_AUTO_MERGE : string := "auto-merge".
Definition _CI_LABELS : gset string :=
  {[ _LABEL_PASSING; _LABEL_FAILING; _LABEL_NEEDS_REVIEW ]}.

(** The line feed of the f-strings. *)
Definition LF : string := String (Ascii.ascii_of_nat 10) "".

(** ** Decoded JSON payloads

    The agent reads a handful of members of the JSON objects it receives.
    A member read with [.get(key)] is an [option].  For [status],
    [conclusion] and [merged], read without a default, [None] stands for a
    member that is absent or [null]: Python reads both as [None].  For
    [check_runs], [labels], [body] and [message], read with a default,
    [None] stands for an absent member, the case the default is for; the
    payloads are typed after the platform's schema, in which these members
    are arrays and strings, never [null].  Members read with [obj[key]] are
    plain fields. *)

(** A check run: [r.get("status")] and [r.get("conclusion")]. *)
Record check_run := CheckRun {
  run_status : option string;
  run_conclusion : option string
}.

(** The body of the check-runs answer: [result.get("check_runs", [])]. *)
Record check_runs_page := CheckRunsPage {
  check_runs : option (list check_run)
}.

(** A pull request: [pr["number"]], [pr["title"]], [pr["head"]["sha"]] and
    the names of [pr.get("labels", [])]. *)
Record pull := Pull {
  pr_number : Z;
  pr_title : string;
  pr_head_sha : string;
  pr_labels : option (list string)
}.

(** An issue comment: [c["id"]] and [c.get("body", "")]. *)
Record comment := Comment {
  comment_id : Z;
  comment_body : option string
}.

(** The answer to a merge request: [.get("merged")] and [.get("message")]. *)
Record merge_result := MergeResult {
  mr_merged : option bool;
  mr_message : option string
}.

(** The three values [_ci_status] returns. *)
Inductive ci_state := passing | failing | pending.

Definition state_name (s : ci_state) : string :=
  match s with
  | passing => "passing"
  | failing => "failing"
  | pending => "pending"
  end.

#[global] Instance ci_state_eq_dec : EqDecision ci_state.
Proof. solve_decision. Defined.
#[global] Instance check_run_eq_dec : EqDecision check_run.
Proof. solve_decision. Defined.
#[global] Instance comment_eq_dec : EqDecision comment.
Proof. solve_decision. Defined.

(** Closes a decidable proposition about concrete data by evaluation. *)
Ltac by_evaluation := apply (bool_decide_unpack _); vm_compute; exact I.

(** ** The status classifier *)

Module Classifier.

(** Python truth value of a string-or-[None] member: [None] and the empty
    string are false. *)
Definition truthy (v : option string) : bool :=
  match v with
  | Some (String _ _) => true
  | _ => false
  end.

(** Line 129: [{r.get("conclusion") for r in runs if r.get("conclusion")}]. *)
Definition conclusions (runs : list check_run) : gset string :=
  list_to_set
    (omap (λ r, if truthy (run_conclusion r) then run_conclusion r else None) runs).

(** Lines 124-136 of [_ci_status]: the verdict on a decoded list of runs. *)
Definition classify (runs : list check_run) : ci_state :=
  if bool_decide (runs = []) then pending
  else if existsb (λ r, bool_decide (run_status r ≠ Some "completed")) runs
  then pending
  else
    let conclusions := conclusions runs in
    if bool_decide (conclusions = ∅) then pending
    else if bool_decide ("failure" ∈ conclusions ∨ "timed_out" ∈ conclusions
                         ∨ "cancelled" ∈ conclusions)
    then failing
    else if forallb
              (λ c, bool_decide (c ∈ ({[ "success"; "neutral"; "skipped" ]} : gset string)))
              (elements conclusions)
    then passing
    else pending.

(** Vocabulary of the specification. *)
Definition completed (r : check_run) : Prop := run_status r = Some "completed".
Definition HARD_FAILURES : gset string := {[ "failure"; "timed_out"; "cancelled" ]}.
Definition GREEN : gset string := {[ "success"; "neutral"; "skipped" ]}.

(** The conclusion set as the specification words it: only absent and null
    conclusions are left out. *)
Definition stated_conclusions (runs : list check_run) : gset string :=
  list_to_set (omap run_conclusion runs).

(** The ordered rules of the specification, over [stated_conclusions]. *)
Definition classify_as_stated (runs : list check_run) : ci_state :=
  if bool_decide (runs = []) then pending
  else if bool_decide (Forall completed runs) then
    let C := stated_conclusions runs in
    if bool_decide (C = ∅) then pending
    else if bool_decide (C ∩ HARD_FAILURES ≠ ∅) then failing
    else if bool_decide (C ⊆ GREEN) then passing
    else pending
  else pending.

(** A run whose empty conclusion is turned into no conclusion at all. *)
Definition without_empty_conclusion (r : check_run) : check_run :=
  match run_conclusion r with
  | Some "" => CheckRun (run_status r) None
  | _ => r
  end.

Definition run_ok (conclusion : string) : check_run :=
  CheckRun (Some "completed") (Some conclusion).

(** One successful run and one run that completed with the empty string. *)
Definition success_and_blank : list check_run := [run_ok "success"; run_ok ""].

Lemma elem_of_conclusions (runs : list check_run) (c : string) :
  c ∈ conclusions runs ↔ c ≠ "" ∧ ∃ r, r ∈ runs ∧ run_conclusion r = Some c.
Proof.
  unfold conclusions. rewrite elem_of_list_to_set, list_elem_of_omap. split.
  - intros (r & Hr & Hc). destruct (run_conclusion r) as [[|a s]|] eqn:E;
      simpl in Hc; try discriminate.
    injection Hc as <-. split; [discriminate|]. by exists r.
  - intros (Hne & r & Hr & Hc). exists r. split; [done|].
    rewrite Hc. destruct c; [done|]. reflexivity.
Qed.

Lemma not_all_completed (runs : list check_run) :
  existsb (λ r, bool_decide (run_status r ≠ Some "completed")) runs = true
  ↔ ∃ r, r ∈ runs ∧ run_status r ≠ Some "completed".
Proof.
  rewrite existsb_exists. split.
  - intros (r & Hin & Hb). exists r. rewrite list_elem_of_In.
    apply bool_decide_eq_true in Hb. done.
  - intros (r & Hin & Hb). exists r. rewrite <- list_elem_of_In.
    split; [done|]. by apply bool_decide_eq_true.
Qed.

Lemma all_completed (runs : list check_run) :
  Forall completed runs →
  existsb (λ r, bool_decide (run_status r ≠ Some "completed")) runs = false.
Proof.
  intros Hall. apply not_true_is_false. rewrite not_all_completed.
  intros (r & Hin & Hne). apply Hne.
  by apply (proj1 (Forall_forall _ _) Hall).
Qed.

Lemma hard_failure_test (C : gset string) :
  ("failure" ∈ C ∨ "timed_out" ∈ C ∨ "cancelled" ∈ C) ↔ C ∩ HARD_FAILURES ≠ ∅.
Proof.
  unfold HARD_FAILURES. split.
  - intros H Hempty. destruct H as [H|[H|H]]; set_solver.
  - intros H. apply set_choose_L in H as (x & Hx).
    apply elem_of_intersection in Hx as [HxC Hx].
    rewrite !elem_of_union, !elem_of_singleton in Hx.
    destruct Hx as [[Hx | Hx] | Hx]; subst x; auto.
Qed.

Lemma green_test (C : gset string) :
  forallb (λ c, bool_decide (c ∈ ({[ "success"; "neutral"; "skipped" ]} : gset string)))
          (elements C) = true
  ↔ C ⊆ GREEN.
Proof.
  rewrite forallb_forall. unfold GREEN. split.
  - intros H c Hc. apply elem_of_elements, list_elem_of_In in Hc.
    apply H in Hc. by apply bool_decide_eq_true in Hc.
  - intros H c Hc. apply list_elem_of_In, elem_of_elements in Hc.
    apply bool_decide_eq_true. by apply H.
Qed.

(** What [classify] returns once every run is completed, in the
    specification's vocabulary. *)
Lemma classify_completed (runs : list check_run) :
  runs ≠ [] → Forall completed runs →
  classify runs =
    if bool_decide (conclusions runs = ∅) then pending
    else if bool_decide (conclusions runs ∩ HARD_FAILURES ≠ ∅) then failing
    else if bool_decide (conclusions runs ⊆ GREEN) then passing
    else pending.
Proof.
  intros Hne Hall. unfold classify.
  rewrite bool_decide_eq_false_2 by done.
  rewrite all_completed by done. cbv zeta.
  case_bool_decide as Hempty; [done|].
  rewrite (bool_decide_ext _ _ (hard_failure_test (conclusions runs))).
  case_bool_decide as Hhard; [done|].
  destruct (forallb _ _) eqn:Hg.
  - apply green_test in Hg. by rewrite bool_decide_eq_true_2.
  - rewrite bool_decide_eq_false_2; [done|].
    intros Hsub. apply green_test in Hsub. congruence.
Qed.

Lemma conclusions_without_empty (runs : list check_run) :
  conclusions (without_empty_conclusion <$> runs) = conclusions runs.
Proof.
  unfold conclusions. f_equal. induction runs as [|r runs IH]; [done|].
  destruct r as [st [[|a s]|]]; cbn; by rewrite ?IH.
Qed.

Lemma green_not_hard (C : gset string) : C ⊆ GREEN → C ∩ HARD_FAILURES = ∅.
Proof.
  intros Hsub. apply set_eq. intros x. split; [|set_solver].
  intros [HxC Hx]%elem_of_intersection. apply Hsub in HxC.
  unfold GREEN, HARD_FAILURES in *.
  rewrite !elem_of_union, !elem_of_singleton in HxC, Hx.
  destruct HxC as [[-> | ->] | ->]; destruct Hx as [[? | ?] | ?]; discriminate.
Qed.

Lemma classify_without_empty (runs : list check_run) :
  classify (without_empty_conclusion <$> runs) = classify runs.
Proof.
  unfold classify. rewrite conclusions_without_empty.
  assert (Hnil : bool_decide (without_empty_conclusion <$> runs = [])
                 = bool_decide (runs = [])) by (by destruct runs).
  assert (Hst : existsb (λ r, bool_decide (run_status r ≠ Some "completed"))
                  (without_empty_conclusion <$> runs)
                = existsb (λ r, bool_decide (run_status r ≠ Some "completed")) runs).
  { clear Hnil. induction runs as [|r runs IH]; [done|].
    destruct r as [st [[|a s]|]]; cbn; by rewrite IH. }
  by rewrite Hnil, Hst.
Qed.

(** C1 (as amended): [classify] follows the ordered rules of the
    specification, the conclusion set being the set of the non-empty
    conclusions of the runs.  No run gives [pending]; a run that is not
    completed gives [pending]; when every run is completed, an empty
    conclusion set gives [pending], a set that meets
    {failure, timed_out, cancelled} gives [failing], a non-empty set inside
    {success, neutral, skipped} gives [passing], and any other non-empty
    set gives [pending]. *)
Theorem classify_rules (runs : list check_run) :
  (runs = [] → classify runs = pending) ∧
  ((∃ r, r ∈ runs ∧ run_status r ≠ Some "completed") → classify runs = pending) ∧
  (Forall completed runs →
     (∀ c, c ∈ conclusions runs
           ↔ c ≠ "" ∧ ∃ r, r ∈ runs ∧ run_conclusion r = Some c) ∧
     (conclusions runs = ∅ → classify runs = pending) ∧
     (conclusions runs ∩ HARD_FAILURES ≠ ∅ → classify runs = failing) ∧
     (conclusions runs ≠ ∅ → conclusions runs ⊆ GREEN → classify runs = passing) ∧
     (conclusions runs ≠ ∅ → conclusions runs ∩ HARD_FAILURES = ∅ →
      ¬ conclusions runs ⊆ GREEN → classify runs = pending)).
Proof.
  split; [by intros ->|]. split.
  - intros Hex. unfold classify. case_bool_decide; [done|].
    apply not_all_completed in Hex. by rewrite Hex.
  - intros Hall. split; [apply elem_of_conclusions|].
    destruct (decide (runs = [])) as [->|Hne]; [by repeat split|].
    rewrite classify_completed by done.
    repeat split.
    + intros ->. done.
    + intros Hhard. case_bool_decide as Hempty.
      * exfalso. apply Hhard. rewrite Hempty. set_solver.
      * by rewrite bool_decide_eq_true_2.
    + intros Hempty Hgreen. rewrite bool_decide_eq_false_2 by done.
      rewrite bool_decide_eq_false_2
        by (intros Hhard; apply Hhard; by apply green_not_hard).
      by rewrite bool_decide_eq_true_2.
    + intros Hempty Hhard Hgreen. rewrite bool_decide_eq_false_2 by done.
      rewrite bool_decide_eq_false_2 by (intros Hh; by apply Hh).
      by rewrite bool_decide_eq_false_2.
Qed.

(** The rules at work on Scenario 1 of the specification. *)
Lemma classify_rules_witness :
  classify [run_ok "success"; run_ok "skipped"] = passing.
Proof.
  apply (classify_rules [run_ok "success"; run_ok "skipped"]).
  - by_evaluation.
  - by_evaluation.
  - by_evaluation.
Defined.

(** C1 (as stated) fails: with one successful run and one run completed
    with the empty string, the set of conclusions that are neither absent
    nor null is {success, empty string}; it is non-empty, meets no hard
    failure and is not inside {success, neutral, skipped}, so the stated
    rules give [pending], while the code gives [passing]. *)
Lemma classify_departs_from_stated_rules :
  Forall completed success_and_blank ∧
  stated_conclusions success_and_blank = {[ "success"; "" ]} ∧
  classify_as_stated success_and_blank = pending ∧
  classify success_and_blank = passing.
Proof.
  split; [by_evaluation|]. split; [by_evaluation|]. split; by vm_compute.
Qed.

(** C10: a completed run whose conclusion is the empty string is discarded
    like a run with no conclusion.  The empty string never enters the
    conclusion set, replacing every empty conclusion by no conclusion
    changes neither the set nor the verdict, and a successful run next to
    a run with an empty conclusion classifies as [passing]. *)
Theorem empty_conclusion_discarded (runs : list check_run) :
  conclusions runs ∖ {[ "" ]} = conclusions runs ∧
  conclusions (without_empty_conclusion <$> runs) = conclusions runs ∧
  classify (without_empty_conclusion <$> runs) = classify runs ∧
  classify [run_ok "success"; run_ok ""] = passing.
Proof.
  split; [|split; [apply conclusions_without_empty|
                   split; [apply classify_without_empty|by vm_compute]]].
  apply set_eq. intros c. rewrite elem_of_difference, elem_of_singleton.
  rewrite elem_of_conclusions. tauto.
Qed.

End Classifier.

(** ** Calls to the hosting platform

    Every use of [_get], [_post], [_patch], [_put] and [_delete] in the
    source is one of the following calls; [method_of] and [path_of] give
    the HTTP method and the path the source builds for it, the remaining
    arguments are the members of the JSON body. *)

Inductive request :=
| GetLabel (label : string)
| CreateLabel (name color : string)
| ListOpenPulls (page : Z)
| GetCheckRuns (sha : string)
| RemoveLabel (pr_number : Z) (label : string)
| AddLabels (pr_number : Z) (labels : list string)
| ListComments (pr_number : Z)
| UpdateComment (comment : Z) (body : string)
| CreateComment (pr_number : Z) (body : string)
| PutMerge (pr_number : Z) (merge_method commit_title : string).

#[global] Instance request_eq_dec : EqDecision request.
Proof. solve_decision. Defined.

Definition method_of (q : request) : string :=
  match q with
  | GetLabel _ | ListOpenPulls _ | GetCheckRuns _ | ListComments _ => "GET"
  | CreateLabel _ _ | AddLabels _ _ | CreateComment _ _ => "POST"
  | RemoveLabel _ _ => "DELETE"
  | UpdateComment _ _ => "PATCH"
  | PutMerge _ _ _ => "PUT"
  end.

Definition path_of (repo : string) (q : request) : string :=
  match q with
  | GetLabel label => "/repos/" +:+ repo +:+ "/labels/" +:+ label
  | CreateLabel _ _ => "/repos/" +:+ repo +:+ "/labels"
  | ListOpenPulls page =>
      "/repos/" +:+ repo +:+ "/pulls?state=open&per_page=100&page=" +:+ pretty page
  | GetCheckRuns sha =>
      "/repos/" +:+ repo +:+ "/commits/" +:+ sha +:+ "/check-runs?per_page=100"
  | RemoveLabel pr_number lbl =>
      "/repos/" +:+ repo +:+ "/issues/" +:+ pretty pr_number +:+ "/labels/" +:+ lbl
  | AddLabels pr_number _ =>
      "/repos/" +:+ repo +:+ "/issues/" +:+ pretty pr_number +:+ "/labels"
  | ListComments pr_number =>
      "/repos/" +:+ repo +:+ "/issues/" +:+ pretty pr_number +:+ "/comments"
  | UpdateComment comment_id _ =>
      "/repos/" +:+ repo +:+ "/issues/comments/" +:+ pretty comment_id
  | CreateComment pr_number _ =>
      "/repos/" +:+ repo +:+ "/issues/" +:+ pretty pr_number +:+ "/comments"
  | PutMerge pr_number _ _ =>
      "/repos/" +:+ repo +:+ "/pulls/" +:+ pretty pr_number +:+ "/merge"
  end.

(** The decoded body the agent reads from a successful call.  The answers
    it never looks into are [unit]. *)
Definition answer (q : request) : Type :=
  match q with
  | ListOpenPulls _ => list pull
  | GetCheckRuns _ => check_runs_page
  | ListComments _ => list comment
  | PutMerge _ _ _ => merge_result
  | _ => unit
  end.

(** An answer of the platform as lines 63-68 take it: a response whose
    body is decoded ([None] when the body is empty), or an [HTTPError]. *)
Inductive http_reply (A : Type) :=
| Ok2xx (body : option A)
| HttpError (code : Z) (raw : string).
Arguments Ok2xx {A} body.
Arguments HttpError {A} code raw.

(** What [urlopen], [resp.read] and [json.loads] raise besides an
    [HTTPError]: no connection, a read that times out, a body that is not
    JSON.  The [try] of lines 62-69 does not catch them, and no caller of
    [_request] does. *)
Inductive exception :=
| URLError (reason : string)
| TimeoutError
| JSONDecodeError (raw : string).

#[global] Instance exception_eq_dec : EqDecision exception.
Proof. solve_decision. Defined.

(** What lines 62-65 come to for one request: the platform answers, or an
    exception other than [HTTPError] is raised. *)
Inductive response (A : Type) :=
| Answered (reply : http_reply A)
| Failed (exn : exception).
Arguments Answered {A} reply.
Arguments Failed {A} exn.

(** What [_request] hands back to its caller (lines 62-69). *)
Definition payload {A} (reply : http_reply A) : option A :=
  match reply with
  | Ok2xx body => body
  | HttpError _ _ => None
  end.

(** ** Transcripts

    A run of the agent leaves a transcript: the calls it made, each with
    the platform's reply or with the exception it raised, and the lines it
    printed. *)
Inductive event :=
| Call (q : request) (reply : http_reply (answer q))
| Uncaught (q : request) (exn : exception)
| Stdout (line : string)
| Stderr (line : string).

Definition call_of (e : event) : option request :=
  match e with
  | Call q _ | Uncaught q _ => Some q
  | _ => None
  end.

Definition calls (evs : list event) : list request := omap call_of evs.

Definition is_merge (q : request) : bool :=
  match q with
  | PutMerge _ _ _ => true
  | _ => false
  end.

(** The merge requests of a transcript, in order. *)
Definition merge_requests (evs : list event) : list request :=
  filter (λ q, is_merge q = true) (calls evs).

(** The labels a transcript asks to remove from, and to add to, an issue. *)
Definition removed_labels (evs : list event) : gset string :=
  list_to_set
    (omap (λ q, match q with RemoveLabel _ lbl => Some lbl | _ => None end) (calls evs)).

Definition added_labels (evs : list event) : gset string :=
  list_to_set
    (calls evs ≫= λ q, match q with AddLabels _ lbls => lbls | _ => [] end).

(** ** The agent monad

    A computation starts from a platform state and ends in one of four
    ways: it returns, it leaves through [sys.exit], it is left by an
    exception that nothing catches, or it is cut off by the bound put on
    the pagination loop. *)
Inductive outcome (A : Type) :=
| Returned (a : A)
| Exited (code : Z)
| Raised (exn : exception)
| OutOfFuel.
Arguments Returned {A} a.
Arguments Exited {A} code.
Arguments Raised {A} exn.
Arguments OutOfFuel {A}.

Record run (Σ A : Type) := Run {
  outcome_of : outcome A;
  final : Σ;
  events : list event
}.
Arguments Run {Σ A} _ _ _.
Arguments outcome_of {Σ A} _.
Arguments final {Σ A} _.
Arguments events {Σ A} _.

Definition agent (Σ A : Type) : Type := Σ → run Σ A.

#[global] Instance agent_ret {Σ} : MRet (agent Σ) :=
  λ A a σ, Run (Returned a) σ [].

#[global] Instance agent_bind {Σ} : MBind (agent Σ) :=
  λ A B f m σ,
    let r := m σ in
    match outcome_of r with
    | Returned a =>
        let r' := f a (final r) in
        Run (outcome_of r') (final r') (events r ++ events r')
    | Exited code => Run (Exited code) (final r) (events r)
    | Raised exn => Run (Raised exn) (final r) (events r)
    | OutOfFuel => Run OutOfFuel (final r) (events r)
    end.

Definition emit {Σ} (e : event) : agent Σ unit := λ σ, Run (Returned tt) σ [e].
(** [print(line)] and [print(line, file=sys.stderr)]. *)
Definition print {Σ} (line : string) : agent Σ unit := emit (Stdout line).
Definition eprint {Σ} (line : string) : agent Σ unit := emit (Stderr line).
(** [sys.exit(code)]. *)
Definition sys_exit {Σ A} (code : Z) : agent Σ A := λ σ, Run (Exited code) σ [].
Definition out_of_fuel {Σ A} : agent Σ A := λ σ, Run OutOfFuel σ [].

(** [for x in items: body(x)]. *)
Fixpoint for_each {Σ A} (items : list A) (body : A → agent Σ unit) : agent Σ unit :=
  match items with
  | [] => mret tt
  | x :: rest => body x ;; for_each rest body
  end.

(** Python's [needle in haystack] on strings. *)
Fixpoint contains (needle haystack : string) : bool :=
  String.prefix needle haystack ||
  match haystack with
  | EmptyString => false
  | String _ rest => contains needle rest
  end.

(** The comments that carry the bot marker (line 148). *)
Definition marked (c : comment) : bool :=
  contains _BOT_COMMENT_MARKER (default "" (comment_body c)).

(** Line 103. *)
Definition _current_labels (pr : pull) : gset string :=
  list_to_set (default [] (pr_labels pr)).

(** Lines 177-181. *)
Definition label_map (status : ci_state) : string :=
  match status with
  | passing => _LABEL_PASSING
  | failing => _LABEL_FAILING
  | pending => _LABEL_NEEDS_REVIEW
  end.

(** Line 185; the icons are the UTF-8 encodings the source file holds. *)
Definition status_icon (status : ci_state) : string :=
  match status with
  | passing => "✅"
  | failing => "❌"
  | pending => "⏳"
  end.

(** Lines 186-195. *)
Definition status_comment (number : Z) (sha : string) (status : ci_state)
    (target_label : string) : string :=
  "**Automated PR Status** " +:+ status_icon status +:+ LF +:+ LF +:+
  "| Field | Value |" +:+ LF +:+
  "|---|---|" +:+ LF +:+
  "| PR | #" +:+ pretty number +:+ " |" +:+ LF +:+
  "| Head SHA | `" +:+ String.substring 0 7 sha +:+ "` |" +:+ LF +:+
  "| CI Status | **" +:+ state_name status +:+ "** |" +:+ LF +:+
  "| Label applied | `" +:+ target_label +:+ "` |" +:+ LF +:+ LF +:+
  "*Updated automatically by the PR agent.*".

(** Line 107: [existing & _CI_LABELS - {new_label}].  In Python [-] binds
    tighter than [&]. *)
Definition stale_labels (existing : gset string) (new_label : string) : gset string :=
  existing ∩ (_CI_LABELS ∖ {[ new_label ]}).

(** Line 202. *)
Definition commit_title (number : Z) (title : string) : string :=
  "Auto-merge PR #" +:+ pretty number +:+ ": " +:+ title.

(** ** Reasoning about computations that return

    [wp m σ Q]: started in [σ], the computation [m] returns, and its
    value, final state and transcript satisfy [Q]. *)
Definition wp {Σ A} (m : agent Σ A) (σ : Σ) (Q : A → Σ → list event → Prop) : Prop :=
  ∃ a σ' evs, m σ = Run (Returned a) σ' evs ∧ Q a σ' evs.

Lemma wp_ret {Σ A} (a : A) (σ : Σ) Q : Q a σ [] → wp (mret a) σ Q.
Proof. intros HQ. by exists a, σ, []. Qed.

Lemma wp_emit {Σ} (e : event) (σ : Σ) Q : Q tt σ [e] → wp (emit e) σ Q.
Proof. intros HQ. by exists tt, σ, [e]. Qed.

Lemma wp_bind {Σ A B} (m : agent Σ A) (f : A → agent Σ B) (σ : Σ) Q :
  wp m σ (λ a σ1 e1, wp (f a) σ1 (λ b σ2 e2, Q b σ2 (e1 ++ e2))) →
  wp (m ≫= f) σ Q.
Proof.
  intros (a & σ1 & e1 & Hm & b & σ2 & e2 & Hf & HQ).
  exists b, σ2, (e1 ++ e2). split; [|done].
  unfold mbind, agent_bind. rewrite Hm. cbn. by rewrite Hf.
Qed.

Lemma wp_mono {Σ A} (m : agent Σ A) (σ : Σ) (Q Q' : A → Σ → list event → Prop) :
  wp m σ Q → (∀ a σ' evs, Q a σ' evs → Q' a σ' evs) → wp m σ Q'.
Proof. intros (a & σ' & evs & Hm & HQ) Himp. exists a, σ', evs. auto. Qed.

(** A computation that returns keeps its own run as a postcondition. *)
Lemma wp_run {Σ A} (m : agent Σ A) (σ : Σ) Q :
  wp m σ Q → wp m σ (λ a σ' evs, m σ = Run (Returned a) σ' evs ∧ Q a σ' evs).
Proof. intros (a & σ' & evs & Hm & HQ). by exists a, σ', evs. Qed.

Lemma wp_outcome {Σ A} (m : agent Σ A) (σ : Σ) Q :
  wp m σ Q → ∃ a, outcome_of (m σ) = Returned a.
Proof. intros (a & σ' & evs & -> & _). by exists a. Qed.

Lemma wp_final {Σ A} (m : agent Σ A) (σ : Σ) (P : Σ → Prop) :
  wp m σ (λ _ σ' _, P σ') → P (final (m σ)).
Proof. by intros (a & σ' & evs & -> & HP). Qed.

(** The loop rule: [I] relates the items already visited to the state and
    the transcript so far. *)
Lemma wp_for_each {Σ A} (items : list A) (body : A → agent Σ unit) (σ : Σ)
    (I : list A → Σ → list event → Prop) :
  I [] σ [] →
  (∀ visited x σ1 e1, I visited σ1 e1 →
     wp (body x) σ1 (λ _ σ2 e2, I (visited ++ [x]) σ2 (e1 ++ e2))) →
  wp (for_each items body) σ (λ _ σ' evs, I items σ' evs).
Proof.
  intros H0 Hstep.
  enough (Hgen : ∀ visited σ1 e1, I visited σ1 e1 →
            wp (for_each items body) σ1 (λ _ σ2 e2, I (visited ++ items) σ2 (e1 ++ e2))).
  { apply (Hgen [] σ [] H0). }
  induction items as [|x items IH]; intros visited σ1 e1 HI.
  - apply wp_ret. by rewrite !app_nil_r.
  - cbn [for_each]. apply wp_bind.
    eapply wp_mono; [apply (Hstep visited x σ1 e1 HI)|].
    intros [] σ2 e2 HI2. cbv beta.
    eapply wp_mono; [apply (IH _ _ _ HI2)|].
    intros [] σ3 e3 HI3. cbv beta.
    by rewrite <- !(assoc_L (++)) in HI3.
Qed.

(** The bind of a computation that may not return. *)
Lemma outcome_bind {Σ A B} (m : agent Σ A) (f : A → agent Σ B) (σ : Σ) :
  outcome_of ((m ≫= f) σ) =
    match outcome_of (m σ) with
    | Returned a => outcome_of (f a (final (m σ)))
    | Exited code => Exited code
    | Raised exn => Raised exn
    | OutOfFuel => OutOfFuel
    end.
Proof. unfold mbind, agent_bind. cbv zeta. by destruct (outcome_of (m σ)). Qed.

Lemma events_bind {Σ A B} (m : agent Σ A) (f : A → agent Σ B) (σ : Σ) :
  events ((m ≫= f) σ) =
    events (m σ) ++
    match outcome_of (m σ) with
    | Returned a => events (f a (final (m σ)))
    | _ => []
    end.
Proof.
  unfold mbind, agent_bind. cbv zeta.
  destruct (outcome_of (m σ)); cbn; by rewrite ?app_nil_r.
Qed.

(** A string is a prefix of itself followed by anything. *)
Lemma prefix_append (s t : string) : String.prefix s (s +:+ t) = true.
Proof.
  induction s as [|a s IH].
  - change ("" +:+ t) with t. by destruct t.
  - change (String a s +:+ t) with (String a (s +:+ t)). cbn [String.prefix].
    by destruct (Ascii.ascii_dec a a).
Qed.

(** Transcript observations split over concatenation. *)
Lemma calls_app (e1 e2 : list event) : calls (e1 ++ e2) = calls e1 ++ calls e2.
Proof. apply omap_app. Qed.

Lemma calls_cons_call (q : request) (reply : http_reply (answer q)) (evs : list event) :
  calls (Call q reply :: evs) = q :: calls evs.
Proof. reflexivity. Qed.

Lemma merge_requests_app (e1 e2 : list event) :
  merge_requests (e1 ++ e2) = merge_requests e1 ++ merge_requests e2.
Proof. unfold merge_requests. by rewrite calls_app, filter_app. Qed.

Lemma removed_labels_app (e1 e2 : list event) :
  removed_labels (e1 ++ e2) = removed_labels e1 ∪ removed_labels e2.
Proof.
  unfold removed_labels. by rewrite calls_app, omap_app, list_to_set_app_L.
Qed.

Lemma added_labels_app (e1 e2 : list event) :
  added_labels (e1 ++ e2) = added_labels e1 ∪ added_labels e2.
Proof.
  unfold added_labels. by rewrite calls_app, bind_app, list_to_set_app_L.
Qed.

(** What follows the first merge request of a transcript: the pull request
    asked for, the platform's reply and the rest of the transcript. *)
Fixpoint since_merge (evs : list event)
    : option (Z * http_reply merge_result * list event) :=
  match evs with
  | [] => None
  | Call (PutMerge n _ _) reply :: rest => Some (n, reply, rest)
  | _ :: rest => since_merge rest
  end.

Definition is_listing (q : request) : bool :=
  match q with
  | ListOpenPulls _ => true
  | _ => false
  end.

(** What came back for each page of the open pull requests asked for. *)
Definition listed_page (e : event) : option (option (list pull)) :=
  match e with
  | Call (ListOpenPulls _) reply => Some (payload reply)
  | _ => None
  end.

Definition listed_pages (evs : list event) : list (option (list pull)) :=
  omap listed_page evs.

(** The calls of a transcript that raised, with what they raised. *)
Definition uncaught_of (e : event) : option (request * exception) :=
  match e with
  | Uncaught q exn => Some (q, exn)
  | _ => None
  end.

Definition uncaught (evs : list event) : list (request * exception) :=
  omap uncaught_of evs.

(** A page that makes the pagination loop go on. *)
Definition full_page (page_data : option (list pull)) : Prop :=
  ∃ prs, page_data = Some prs ∧ (100 ≤ length prs)%nat.

(** The calls made while a pull request is handled or a label is
    provisioned: anything but a merge or a page of the listing. *)
Definition routine (q : request) : Prop :=
  is_merge q = false ∧ is_listing q = false.

(** A merge answer that says the merge was done. *)
Definition reports_merged (response : option merge_result) : Prop :=
  ∃ m, response = Some m ∧ mr_merged m = Some true.

(** The message of a failed merge: the platform's, or a fallback. *)
Definition failure_message (response : option merge_result) : string :=
  match response with
  | Some m => default "unknown error" (mr_message m)
  | None => "no response"
  end.

Lemma calls_routine_no_merge (evs : list event) :
  Forall routine (calls evs) → merge_requests evs = [].
Proof.
  unfold merge_requests. induction (calls evs) as [|q qs IH]; [done|].
  intros [[Hm _] Hqs]%Forall_cons. rewrite filter_cons_False by congruence. auto.
Qed.

Lemma since_merge_routine (evs rest : list event) :
  Forall routine (calls evs) → since_merge (evs ++ rest) = since_merge rest.
Proof.
  induction evs as [|e evs IH]; [done|]. destruct e as [q reply|q exn| |]; cbn; auto.
  - intros [[Hm _] Hqs]%Forall_cons. destruct q; try discriminate; auto.
  - intros [_ Hqs]%Forall_cons. auto.
Qed.

Lemma listed_pages_no_listing (evs : list event) :
  Forall (λ q, is_listing q = false) (calls evs) → listed_pages evs = [].
Proof.
  induction evs as [|e evs IH]; [done|]. destruct e as [q reply|q exn| |]; cbn; auto.
  - intros [Hl Hqs]%Forall_cons. destruct q; try discriminate; auto.
  - intros [_ Hqs]%Forall_cons. auto.
Qed.

Lemma wp_and {Σ A} (m : agent Σ A) (σ : Σ) (Q1 Q2 : A → Σ → list event → Prop) :
  wp m σ Q1 → wp m σ Q2 → wp m σ (λ a σ' evs, Q1 a σ' evs ∧ Q2 a σ' evs).
Proof.
  intros (a & σ' & evs & Hm & H1) (a2 & σ2 & evs2 & Hm2 & H2).
  rewrite Hm in Hm2. injection Hm2 as <- <- <-. by exists a, σ', evs.
Qed.

Lemma bind_returned {Σ A B} (m : agent Σ A) (f : A → agent Σ B) (σ σ' : Σ)
    (a : A) (evs : list event) :
  m σ = Run (Returned a) σ' evs →
  (m ≫= f) σ = Run (outcome_of (f a σ')) (final (f a σ')) (evs ++ events (f a σ')).
Proof. intros Hm. unfold mbind, agent_bind. by rewrite Hm. Qed.

Lemma listed_pages_app (e1 e2 : list event) :
  listed_pages (e1 ++ e2) = listed_pages e1 ++ listed_pages e2.
Proof. apply omap_app. Qed.

Lemma uncaught_app (e1 e2 : list event) : uncaught (e1 ++ e2) = uncaught e1 ++ uncaught e2.
Proof. apply omap_app. Qed.

Section Agent.

Context {Σ : Type}.
(** The transport: what becomes of a call, and the state the platform is
    left in. *)
Variable urlopen : ∀ q : request, Σ → response (answer q) * Σ.
(** [GITHUB_TOKEN] and [GITHUB_REPOSITORY] (lines 33-34). *)
Variables _TOKEN _REPO : string.

Local Abbreviation M := (agent Σ).

(** Lines 58-69.  An [HTTPError] is printed on stderr and becomes [None];
    any other exception leaves [_request], and every caller with it. *)
Definition _request (q : request) : M (option (answer q)) := λ σ,
  let '(result, σ') := urlopen q σ in
  match result with
  | Answered (Ok2xx body) => Run (Returned body) σ' [Call q (Ok2xx body)]
  | Answered (HttpError code raw) =>
      Run (Returned None) σ'
        [Call q (HttpError code raw);
         Stderr ("  HTTP " +:+ pretty code +:+ " " +:+ method_of q +:+ " "
                 +:+ _API +:+ path_of _REPO q +:+ ": " +:+ raw)]
  | Failed exn => Run (Raised exn) σ' [Uncaught q exn]
  end.

Definition _get (q : request) : M (option (answer q)) := _request q.
Definition _post (q : request) : M (option (answer q)) := _request q.
Definition _patch (q : request) : M (option (answer q)) := _request q.
Definition _put (q : request) : M (option (answer q)) := _request q.
Definition _delete (q : request) : M unit := _request q ;; mret tt.

(** Lines 96-99. *)
Definition _ensure_label_exists (label color : string) : M unit :=
  result ← _get (GetLabel label);
  match result with
  | None => _post (CreateLabel label color) ;; mret tt
  | Some _ => mret tt
  end.

(** Lines 106-111.  The loop visits the stale labels in the order
    [elements] lists them; Python leaves the order of a set open. *)
Definition _set_ci_label (pr_number : Z) (existing : gset string)
    (new_label : string) : M unit :=
  let stale := stale_labels existing new_label in
  for_each (elements stale) (λ lbl, _delete (RemoveLabel pr_number lbl)) ;;
  if bool_decide (new_label ∈ existing) then mret tt
  else _post (AddLabels pr_number [new_label]) ;; mret tt.

(** Lines 118-136. *)
Definition _ci_status (sha : string) : M ci_state :=
  result ← _get (GetCheckRuns sha);
  match result with
  | None => mret pending
  | Some result => mret (Classifier.classify (default [] (check_runs result)))
  end.

(** Lines 143-150. *)
Definition _bot_comment_id (pr_number : Z) : M (option Z) :=
  comments ← _get (ListComments pr_number);
  match comments with
  | None => mret None
  | Some comments => mret (comment_id <$> List.find marked comments)
  end.

(** Lines 153-159.  [if comment_id:] is false for [None] and for [0]. *)
Definition _upsert_comment (pr_number : Z) (body : string) : M unit :=
  let full_body := _BOT_COMMENT_MARKER +:+ LF +:+ body in
  comment_id ← _bot_comment_id pr_number;
  match comment_id with
  | Some id =>
      if bool_decide (id ≠ 0) then _patch (UpdateComment id full_body) ;; mret tt
      else _post (CreateComment pr_number full_body) ;; mret tt
  | None => _post (CreateComment pr_number full_body) ;; mret tt
  end.

(** Lines 166-208. *)
Definition _handle_pr (pr : pull) : M unit :=
  let number := pr_number pr in
  let title := pr_title pr in
  let sha := pr_head_sha pr in
  let current := _current_labels pr in
  print ("  PR #" +:+ pretty number +:+ ": " +:+ title) ;;
  status ← _ci_status sha;
  print ("    CI status: " +:+ state_name status) ;;
  let target_label := label_map status in
  _set_ci_label number current target_label ;;
  let comment := status_comment number sha status target_label in
  _upsert_comment number comment ;;
  if bool_decide (status = passing) && bool_decide (_LABEL_AUTO_MERGE ∈ current) then
    print ("    Auto-merging PR #" +:+ pretty number +:+ " (squash)…") ;;
    merge_result ← _put (PutMerge number "squash" (commit_title number title));
    match merge_result with
    | Some {| mr_merged := Some true |} =>
        print ("    PR #" +:+ pretty number +:+ " merged successfully.")
    | Some result =>
        let msg := default "unknown error" (mr_message result) in
        eprint ("    Auto-merge failed for PR #" +:+ pretty number +:+ ": " +:+ msg)
    | None =>
        let msg := "no response" in
        eprint ("    Auto-merge failed for PR #" +:+ pretty number +:+ ": " +:+ msg)
    end
  else mret tt.

(** Lines 226-236: the pagination loop, bounded by [fuel] rounds. *)
Fixpoint fetch_open_prs (fuel : nat) (page : Z) (prs : list pull) : M (list pull) :=
  match fuel with
  | O => out_of_fuel
  | S fuel =>
      page_data ← _get (ListOpenPulls page);
      match page_data with
      | None => eprint "Failed to fetch open PRs." ;; sys_exit 1
      | Some page_data =>
          let prs := prs ++ page_data in
          if bool_decide (length page_data < 100)%nat then mret prs
          else fetch_open_prs fuel (page + 1) prs
      end
  end.

(** Lines 211-242. *)
Definition main (fuel : nat) : M unit :=
  if bool_decide (_TOKEN = "") then
    eprint "GITHUB_TOKEN is not set — aborting." ;; sys_exit 1
  else if bool_decide (_REPO = "") then
    eprint "GITHUB_REPOSITORY is not set — aborting." ;; sys_exit 1
  else
    print ("PR Agent running for " +:+ _REPO) ;;
    _ensure_label_exists _LABEL_PASSING "0e8a16" ;;
    _ensure_label_exists _LABEL_FAILING "d73a4a" ;;
    _ensure_label_exists _LABEL_NEEDS_REVIEW "e4e669" ;;
    prs ← fetch_open_prs fuel 1 [];
    print ("Found " +:+ pretty (length prs) +:+ " open PR(s).") ;;
    for_each prs _handle_pr ;;
    print "PR Agent done.".

(** The line [_request] prints for an [HTTPError] (line 68). *)
Definition http_log (q : request) (reply : http_reply (answer q)) : list event :=
  match reply with
  | Ok2xx _ => []
  | HttpError code raw =>
      [Stderr ("  HTTP " +:+ pretty code +:+ " " +:+ method_of q +:+ " "
               +:+ _API +:+ path_of _REPO q +:+ ": " +:+ raw)]
  end.

(** The run of [_request], by what became of the call. *)
Lemma _request_cases (q : request) (σ : Σ) :
  _request q σ =
    match (urlopen q σ).1 with
    | Answered reply =>
        Run (Returned (payload reply)) (urlopen q σ).2 (Call q reply :: http_log q reply)
    | Failed exn => Run (Raised exn) (urlopen q σ).2 [Uncaught q exn]
    end.
Proof. unfold _request. by destruct (urlopen q σ) as [[[body|code raw]|exn] σ']. Qed.

End Agent.

(** ** Platforms that answer every call

    A platform answers a call with a body or with an HTTP error status.
    [answering serve] is the transport over which every call gets the
    answer of [serve]. *)
Definition answering {Σ} (serve : ∀ q : request, Σ → http_reply (answer q) * Σ)
    (q : request) (σ : Σ) : response (answer q) * Σ :=
  (Answered (serve q σ).1, (serve q σ).2).

Section Answered.

Context {Σ : Type}.
(** The hosting platform: how it answers a call and what state it is left in. *)
Variable serve : ∀ q : request, Σ → http_reply (answer q) * Σ.
Variables _TOKEN _REPO : string.

Local Abbreviation M := (agent Σ).

(** *** What every run of the agent's procedures does *)

Lemma _request_run (q : request) (σ : Σ) :
  _request (answering serve) _REPO q σ =
    Run (Returned (payload (serve q σ).1)) (serve q σ).2
        (Call q (serve q σ).1 :: http_log _REPO q (serve q σ).1).
Proof. by rewrite _request_cases. Qed.

Lemma wp_request (q : request) (σ : Σ) Q :
  (∀ reply σ', serve q σ = (reply, σ') →
     Q (payload reply) σ' (Call q reply :: http_log _REPO q reply)) →
  wp (_request (answering serve) _REPO q) σ Q.
Proof.
  intros HQ. eexists _, _, _. split; [apply _request_run|].
  apply HQ. by destruct (serve q σ).
Qed.

Lemma calls_http_log (q : request) (reply : http_reply (answer q)) :
  calls (http_log _REPO q reply) = [].
Proof. by destruct reply. Qed.

Lemma calls_request (q : request) (reply : http_reply (answer q)) :
  calls (Call q reply :: http_log _REPO q reply) = [q].
Proof. cbn. by rewrite calls_http_log. Qed.

(** [talks P m]: [m] always returns, and every call it makes satisfies [P]. *)
Definition talks {A} (P : request → Prop) (m : M A) : Prop :=
  ∀ σ, wp m σ (λ _ _ evs, Forall P (calls evs)).

Lemma talks_ret {A} P (a : A) : talks P (mret a).
Proof. intros σ. apply wp_ret. constructor. Qed.

Lemma talks_emit P (e : event) : call_of e = None → talks P (emit e).
Proof. intros He σ. apply wp_emit. unfold calls. cbn. rewrite He. constructor. Qed.

Lemma talks_print P (line : string) : talks P (print line).
Proof. by apply talks_emit. Qed.

Lemma talks_eprint P (line : string) : talks P (eprint line).
Proof. by apply talks_emit. Qed.

Lemma talks_bind {A B} P (m : M A) (f : A → M B) :
  talks P m → (∀ a, talks P (f a)) → talks P (m ≫= f).
Proof.
  intros Hm Hf σ. apply wp_bind. eapply wp_mono; [apply Hm|].
  intros a σ1 e1 H1. cbv beta. eapply wp_mono; [apply Hf|].
  intros b σ2 e2 H2. cbv beta. rewrite calls_app. by apply Forall_app.
Qed.

Lemma talks_request P (q : request) : P q → talks P (_request (answering serve) _REPO q).
Proof.
  intros HP σ. apply wp_request. intros reply σ' _.
  rewrite calls_request. by constructor.
Qed.

Lemma talks_delete P (q : request) : P q → talks P (_delete (answering serve) _REPO q).
Proof.
  intros HP. apply talks_bind; [by apply talks_request|].
  intros _. apply talks_ret.
Qed.

Lemma talks_for_each {A} P (items : list A) (body : A → M unit) :
  (∀ x, talks P (body x)) → talks P (for_each items body).
Proof.
  intros Hbody. induction items as [|x items IH]; [apply talks_ret|].
  cbn [for_each]. apply talks_bind; auto.
Qed.

Lemma talks_ci_status P (sha : string) :
  P (GetCheckRuns sha) → talks P (_ci_status (answering serve) _REPO sha).
Proof.
  intros Hget. apply talks_bind; [by apply (talks_request _ (GetCheckRuns sha))|].
  intros [result|]; apply talks_ret.
Qed.

Lemma talks_set_ci_label P (pr_number : Z) (existing : gset string) (new_label : string) :
  (∀ lbl, P (RemoveLabel pr_number lbl)) → P (AddLabels pr_number [new_label]) →
  talks P (_set_ci_label (answering serve) _REPO pr_number existing new_label).
Proof.
  intros Hdel Hadd. apply talks_bind.
  - apply talks_for_each. intros lbl. by apply talks_delete.
  - intros _. case_bool_decide; [apply talks_ret|].
    apply talks_bind; [by apply talks_request|]. intros _. apply talks_ret.
Qed.

Lemma talks_upsert_comment P (pr_number : Z) (body : string) :
  P (ListComments pr_number) →
  (∀ id text, P (UpdateComment id text)) →
  (∀ text, P (CreateComment pr_number text)) →
  talks P (_upsert_comment (answering serve) _REPO pr_number body).
Proof.
  intros Hlist Hpatch Hpost. apply talks_bind.
  - apply talks_bind; [by apply (talks_request _ (ListComments pr_number))|].
    intros [comments|]; apply talks_ret.
  - intros [id|]; [case_bool_decide|];
      (apply talks_bind; [by apply talks_request|]; intros _; apply talks_ret).
Qed.

(** The line that reports the outcome of a merge request (lines 204-208),
    read off the platform's answer. *)
Definition merge_report (number : Z) (response : option merge_result) : event :=
  match response with
  | Some {| mr_merged := Some true |} =>
      Stdout ("    PR #" +:+ pretty number +:+ " merged successfully.")
  | _ =>
      Stderr ("    Auto-merge failed for PR #" +:+ pretty number +:+ ": "
              +:+ failure_message response)
  end.

(** The transcript of [_handle_pr]: routine calls, then, when the merge
    condition holds, the merge request and the report of its outcome. *)
Lemma handle_pr_spec (pr : pull) (σ : Σ) :
  wp (_handle_pr (answering serve) _REPO pr) σ (λ _ _ evs,
    ∃ status σ1 e1 e0,
      _ci_status (answering serve) _REPO (pr_head_sha pr) σ = Run (Returned status) σ1 e1 ∧
      Forall routine (calls e0) ∧
      Stdout ("  PR #" +:+ pretty (pr_number pr) +:+ ": " +:+ pr_title pr) ∈ e0 ∧
      if bool_decide (status = passing) && bool_decide (_LABEL_AUTO_MERGE ∈ _current_labels pr)
      then ∃ reply,
        let q := PutMerge (pr_number pr) "squash" (commit_title (pr_number pr) (pr_title pr)) in
        evs = e0 ++ Call q reply :: http_log _REPO q reply
                 ++ [merge_report (pr_number pr) (payload reply)]
      else evs = e0).
Proof.
  unfold _handle_pr. cbv zeta.
  apply wp_bind, wp_emit. apply wp_bind.
  eapply wp_mono; [apply wp_run, (talks_ci_status routine); by split|].
  intros status σ1 e1 [Hrun Hci]. cbv beta.
  apply wp_bind, wp_emit. apply wp_bind.
  eapply wp_mono; [apply (talks_set_ci_label routine); intros; by split|].
  intros [] σ2 e2 Hset. cbv beta. apply wp_bind.
  eapply wp_mono; [apply (talks_upsert_comment routine); intros; by split|].
  intros [] σ3 e3 Hups. cbv beta.
  set (header := Stdout ("  PR #" +:+ pretty (pr_number pr) +:+ ": " +:+ pr_title pr)).
  set (line := Stdout ("    CI status: " +:+ state_name status)).
  assert (Hroutine : Forall routine (calls ([header] ++ e1 ++ [line] ++ e2 ++ e3))).
  { rewrite !calls_app. repeat apply Forall_app_2; auto; constructor. }
  destruct (bool_decide (status = passing) && bool_decide (_ ∈ _)) eqn:Hgate.
  - apply wp_bind, wp_emit. apply wp_bind.
    apply (wp_request (PutMerge (pr_number pr) "squash"
                         (commit_title (pr_number pr) (pr_title pr)))).
    intros reply σ4 _.
    set (auto := Stdout ("    Auto-merging PR #" +:+ pretty (pr_number pr) +:+ " (squash)…")).
    assert (Hroutine' : Forall routine
              (calls ([header] ++ e1 ++ [line] ++ e2 ++ e3 ++ [auto]))).
    { rewrite !calls_app. repeat apply Forall_app_2; auto; constructor. }
    cbv beta.
    destruct (payload reply) as [[[[]|] message]|] eqn:Hp; apply wp_emit;
      exists status, σ1, e1, ([header] ++ e1 ++ [line] ++ e2 ++ e3 ++ [auto]);
      (split; [done|]); (split; [done|]);
      (split; [by apply elem_of_app; left; apply list_elem_of_singleton|]);
      rewrite Hgate; exists reply; cbv zeta; rewrite Hp;
      cbn [merge_report failure_message mr_message];
      by rewrite <- !(assoc_L (++)).
  - apply wp_ret.
    exists status, σ1, e1, ([header] ++ e1 ++ [line] ++ e2 ++ e3).
    split; [done|]. split; [done|].
    split; [by apply elem_of_app; left; apply list_elem_of_singleton|].
    rewrite Hgate. by rewrite !app_nil_r.
Qed.

(** The calls of [_set_ci_label], in order. *)
Lemma set_ci_label_calls (pr_number : Z) (existing : gset string)
    (new_label : string) (σ : Σ) :
  wp (_set_ci_label (answering serve) _REPO pr_number existing new_label) σ (λ _ _ evs,
    calls evs =
      (RemoveLabel pr_number <$> elements (stale_labels existing new_label))
      ++ (if bool_decide (new_label ∈ existing) then []
          else [AddLabels pr_number [new_label]])).
Proof.
  unfold _set_ci_label. cbv zeta. apply wp_bind.
  eapply wp_mono.
  { apply (wp_for_each _ _ _ (λ visited _ evs,
             calls evs = RemoveLabel pr_number <$> visited)); [done|].
    intros visited lbl σ1 e1 He1. unfold _delete. apply wp_bind.
    apply (wp_request (RemoveLabel pr_number lbl)). intros reply σ2 _.
    apply wp_ret. rewrite !calls_app, calls_request, He1, fmap_app.
    by rewrite app_nil_r. }
  intros [] σ1 e1 He1. cbv beta. case_bool_decide.
  - apply wp_ret. by rewrite calls_app, He1.
  - apply wp_bind. apply (wp_request (AddLabels pr_number [new_label])).
    intros reply σ2 _. apply wp_ret.
    by rewrite !calls_app, calls_request, He1.
Qed.

Lemma stale_labels_alt (existing : gset string) (new_label : string) :
  stale_labels existing new_label = (existing ∩ _CI_LABELS) ∖ {[ new_label ]}.
Proof. unfold stale_labels. set_solver. Qed.

(** The delta of [_set_ci_label], read off its transcript. *)
Lemma set_ci_label_delta (pr_number : Z) (existing : gset string)
    (new_label : string) (σ : Σ) :
  wp (_set_ci_label (answering serve) _REPO pr_number existing new_label) σ (λ _ _ evs,
    removed_labels evs = stale_labels existing new_label ∧
    added_labels evs = (if bool_decide (new_label ∈ existing) then ∅ else {[ new_label ]})).
Proof.
  eapply wp_mono; [apply set_ci_label_calls|]. intros [] _ evs Hcalls. cbv beta.
  unfold removed_labels, added_labels. rewrite Hcalls, omap_app, bind_app.
  assert (Hrm : ∀ lbls : list string,
            omap (λ q, match q with RemoveLabel _ lbl => Some lbl | _ => None end)
                 (RemoveLabel pr_number <$> lbls) = lbls)
    by (intros lbls; induction lbls as [|l lbls IH]; cbn; by rewrite ?IH).
  assert (Hadd : ∀ lbls : list string,
            (RemoveLabel pr_number <$> lbls)
              ≫= (λ q, match q with AddLabels _ ls => ls | _ => [] end) = [])
    by (intros lbls; induction lbls as [|l lbls IH]; cbn; by rewrite ?IH).
  rewrite Hrm, Hadd, !list_to_set_app_L, list_to_set_elements_L.
  case_bool_decide; cbn; split; set_solver.
Qed.

(** C3: whatever the platform answers, the labels [_set_ci_label] asks to
    remove are the CI-state labels among the current ones other than the
    target, and the labels it asks to add are the target when it is not
    among the current labels, and none otherwise. *)
Theorem reconciler_delta (pr_number : Z) (existing : gset string)
    (new_label : string) (σ : Σ) :
  removed_labels
    (events (_set_ci_label (answering serve) _REPO pr_number existing new_label σ))
    = (existing ∩ _CI_LABELS) ∖ {[ new_label ]} ∧
  added_labels
    (events (_set_ci_label (answering serve) _REPO pr_number existing new_label σ))
    = (if decide (new_label ∈ existing) then ∅ else {[ new_label ]}).
Proof.
  destruct (set_ci_label_delta pr_number existing new_label σ)
    as ([] & σ' & evs & -> & Hremoved & Hadded).
  cbn [events]. rewrite Hremoved, Hadded, stale_labels_alt. split; [done|].
  rewrite decide_bool_decide. by case_bool_decide.
Qed.

(** *** Applying a delta

    The label set an issue ends with once the removals and additions of a
    transcript are carried out. *)
Definition apply_delta (labels : gset string) (evs : list event) : gset string :=
  (labels ∖ removed_labels evs) ∪ added_labels evs.

Lemma apply_own_delta (pr_number : Z) (existing : gset string)
    (new_label : string) (σ : Σ) :
  apply_delta existing
    (events (_set_ci_label (answering serve) _REPO pr_number existing new_label σ))
    = (existing ∖ stale_labels existing new_label) ∪ {[ new_label ]}.
Proof.
  destruct (set_ci_label_delta pr_number existing new_label σ)
    as ([] & σ' & evs & -> & Hremoved & Hadded).
  cbn [events]. unfold apply_delta. rewrite Hremoved, Hadded.
  unfold stale_labels. case_bool_decide; set_solver.
Qed.

Lemma reconciled_exclusive (existing : gset string) (new_label : string) :
  new_label ∈ _CI_LABELS →
  ((existing ∖ stale_labels existing new_label) ∪ {[ new_label ]}) ∩ _CI_LABELS
    = {[ new_label ]}.
Proof. unfold stale_labels. set_solver. Qed.

Lemma reconciled_stale (existing : gset string) (new_label : string) :
  stale_labels ((existing ∖ stale_labels existing new_label) ∪ {[ new_label ]}) new_label
    = ∅.
Proof. unfold stale_labels. set_solver. Qed.

(** With nothing stale and the target in place, [_set_ci_label] is silent. *)
Lemma set_ci_label_silent (pr_number : Z) (existing : gset string)
    (new_label : string) (σ : Σ) :
  stale_labels existing new_label = ∅ → new_label ∈ existing →
  _set_ci_label (answering serve) _REPO pr_number existing new_label σ
    = Run (Returned tt) σ [].
Proof.
  intros Hstale Hin. unfold _set_ci_label. cbv zeta.
  rewrite Hstale, elements_empty, bool_decide_eq_true_2 by done. reflexivity.
Qed.

(** C2: a merge request is made exactly when the state computed by
    [_ci_status] is [passing] and [auto-merge] is among the labels the pull
    request came with; it is then the only one, it asks for a squash and its
    commit title is "Auto-merge PR #<number>: <title>". *)
Theorem merge_gating (pr : pull) (σ : Σ) :
  ∃ status,
    outcome_of (_ci_status (answering serve) _REPO (pr_head_sha pr) σ) = Returned status ∧
    merge_requests (events (_handle_pr (answering serve) _REPO pr σ)) =
      if bool_decide (status = passing ∧ _LABEL_AUTO_MERGE ∈ _current_labels pr)
      then [PutMerge (pr_number pr) "squash"
              ("Auto-merge PR #" +:+ pretty (pr_number pr) +:+ ": " +:+ pr_title pr)]
      else [].
Proof.
  destruct (handle_pr_spec pr σ)
    as ([] & σ' & evs & Hrun & status & σ1 & e1 & e0 & Hci & Hroutine & _ & Hevs).
  exists status. rewrite Hci, Hrun. cbn [outcome_of events]. split; [done|].
  rewrite bool_decide_and.
  destruct (bool_decide (status = passing) && bool_decide (_ ∈ _)).
  - destruct Hevs as (reply & ->). cbv zeta.
    rewrite merge_requests_app, (calls_routine_no_merge e0) by done.
    unfold merge_requests. rewrite calls_cons_call, calls_app, calls_http_log.
    by destruct (payload reply) as [[[[]|] message]|].
  - subst evs. by apply calls_routine_no_merge.
Qed.

Lemma merge_report_merged (number : Z) (response : option merge_result) :
  reports_merged response →
  merge_report number response
    = Stdout ("    PR #" +:+ pretty number +:+ " merged successfully.").
Proof. intros (m & -> & Hm). destruct m as [merged message]. cbn in Hm. by subst. Qed.

Lemma merge_report_failed (number : Z) (response : option merge_result) :
  ¬ reports_merged response →
  merge_report number response
    = Stderr ("    Auto-merge failed for PR #" +:+ pretty number +:+ ": "
              +:+ failure_message response).
Proof.
  intros Hno. destruct response as [[[[]|] message]|]; try done.
  exfalso. apply Hno. by eexists.
Qed.

(** Handling a pull request never asks for a page of the listing. *)
Lemma talks_handle_pr (pr : pull) :
  talks (λ q, is_listing q = false) (_handle_pr (answering serve) _REPO pr).
Proof.
  intros σ. eapply wp_mono; [apply handle_pr_spec|].
  intros [] σ' evs (status & σ1 & e1 & e0 & _ & Hroutine & _ & Hevs). cbv beta.
  assert (He0 : Forall (λ q, is_listing q = false) (calls e0))
    by (eapply Forall_impl; [exact Hroutine|]; by intros q [_ ?]).
  destruct (bool_decide (status = passing) && bool_decide (_ ∈ _)); [|by subst].
  destruct Hevs as (reply & ->). cbv zeta.
  rewrite calls_app, calls_cons_call, calls_app, calls_http_log.
  apply Forall_app_2; [done|].
  by destruct (payload reply) as [[[[]|] message]|]; repeat constructor.
Qed.

(** The loop over the pull requests visits every one of them. *)
Lemma for_each_handle_pr (prs : list pull) (σ : Σ) :
  wp (for_each prs (_handle_pr (answering serve) _REPO)) σ (λ _ _ evs,
    Forall (λ q, is_listing q = false) (calls evs) ∧
    ∀ pr, pr ∈ prs →
      Stdout ("  PR #" +:+ pretty (pr_number pr) +:+ ": " +:+ pr_title pr) ∈ evs).
Proof.
  apply (wp_for_each _ _ _ (λ visited _ evs,
    Forall (λ q, is_listing q = false) (calls evs) ∧
    ∀ pr, pr ∈ visited →
      Stdout ("  PR #" +:+ pretty (pr_number pr) +:+ ": " +:+ pr_title pr) ∈ evs)).
  { split; [constructor|]. intros pr Hin. by apply elem_of_nil in Hin. }
  intros visited x σ1 e1 [Hcalls Hseen].
  eapply wp_mono; [apply wp_and; [apply talks_handle_pr|apply handle_pr_spec]|].
  intros [] σ2 e2 [Hx (status & σ' & e' & e0 & _ & _ & Hheader & Hevs)]. cbv beta.
  split; [rewrite calls_app; by apply Forall_app_2|].
  intros pr [Hin|Hin%list_elem_of_singleton]%elem_of_app; apply elem_of_app.
  - left. auto.
  - right. subst pr.
    destruct (bool_decide (status = passing) && bool_decide (_ ∈ _)); [|by subst].
    destruct Hevs as (reply & ->). apply elem_of_app. by left.
Qed.

Lemma listed_pages_http_log (q : request) (reply : http_reply (answer q)) :
  listed_pages (http_log _REPO q reply) = [].
Proof. by destruct reply. Qed.

End Answered.

(** ** Calls that raise

    Over an arbitrary transport a call may raise, and then so does every
    procedure on the way up to [main]: nothing catches the exception. *)

Section Raising.

Context {Σ : Type}.
Variable urlopen : ∀ q : request, Σ → response (answer q) * Σ.
Variables _TOKEN _REPO : string.

(** How the procedures below [main] end: a run returns, and then every
    call it made was answered, or it raises, and then the exception is the
    one the transport gave to its last call, every call before that one
    having been answered. *)
Definition returns_or_raises {A} (r : run Σ A) : Prop :=
  match outcome_of r with
  | Returned _ => uncaught (events r) = []
  | Raised exn =>
      ∃ q σ0 evs,
        (urlopen q σ0).1 = Failed exn ∧
        events r = evs ++ [Uncaught q exn] ∧ uncaught evs = []
  | Exited _ | OutOfFuel => False
  end.

(** [attempts P m]: [m] returns or raises, and every call it makes
    satisfies [P]. *)
Definition attempts {A} (P : request → Prop) (m : agent Σ A) : Prop :=
  ∀ σ, Forall P (calls (events (m σ))) ∧ returns_or_raises (m σ).

Lemma attempts_ret {A} P (a : A) : attempts P (mret a : agent Σ A).
Proof. intros σ. split; [constructor|done]. Qed.

Lemma attempts_emit P (e : event) :
  call_of e = None → uncaught_of e = None → attempts P (emit e : agent Σ unit).
Proof.
  intros Hc Hu σ. unfold returns_or_raises, uncaught, calls. cbn.
  rewrite Hc, Hu. split; [constructor|done].
Qed.

Lemma attempts_print P (line : string) : attempts P (print line : agent Σ unit).
Proof. by apply attempts_emit. Qed.

Lemma attempts_eprint P (line : string) : attempts P (eprint line : agent Σ unit).
Proof. by apply attempts_emit. Qed.

Lemma attempts_bind {A B} P (m : agent Σ A) (f : A → agent Σ B) :
  attempts P m → (∀ a, attempts P (f a)) → attempts P (m ≫= f).
Proof.
  intros Hm Hf σ. destruct (Hm σ) as [Hc Hr]. unfold returns_or_raises in *.
  rewrite events_bind, outcome_bind, calls_app.
  destruct (outcome_of (m σ)) as [a|code|exn|]; try done.
  - destruct (Hf a (final (m σ))) as [Hc2 Hr2]. split; [by apply Forall_app_2|].
    unfold returns_or_raises in Hr2.
    destruct (outcome_of (f a (final (m σ)))) as [b|code|exn|]; try done.
    + by rewrite uncaught_app, Hr, Hr2.
    + destruct Hr2 as (q & σ0 & evs & Hfail & -> & Hevs).
      exists q, σ0, (events (m σ) ++ evs). split; [done|].
      split; [by rewrite (assoc_L (++))|]. by rewrite uncaught_app, Hr, Hevs.
  - rewrite !app_nil_r. by split.
Qed.

Lemma attempts_request P (q : request) : P q → attempts P (_request urlopen _REPO q).
Proof.
  intros HP σ. unfold returns_or_raises. rewrite _request_cases.
  destruct (urlopen q σ).1 as [reply|exn] eqn:Hreply; cbn [outcome_of events].
  - rewrite calls_request. split; [by constructor|].
    by destruct reply.
  - split; [by repeat constructor|]. by exists q, σ, [].
Qed.

Lemma attempts_delete P (q : request) : P q → attempts P (_delete urlopen _REPO q).
Proof.
  intros HP. apply attempts_bind; [by apply attempts_request|].
  intros _. apply attempts_ret.
Qed.

Lemma attempts_for_each {A} P (items : list A) (body : A → agent Σ unit) :
  (∀ x, x ∈ items → attempts P (body x)) → attempts P (for_each items body).
Proof.
  induction items as [|x items IH]; intros Hbody; [apply attempts_ret|].
  cbn [for_each]. apply attempts_bind.
  - apply Hbody. by left.
  - intros _. apply IH. intros y Hy. apply Hbody. by right.
Qed.

Lemma attempts_ensure_label_exists P (label color : string) :
  P (GetLabel label) → P (CreateLabel label color) →
  attempts P (_ensure_label_exists urlopen _REPO label color).
Proof.
  intros Hget Hpost. apply attempts_bind; [by apply attempts_request|].
  intros [result|]; [apply attempts_ret|].
  apply attempts_bind; [by apply attempts_request|]. intros _. apply attempts_ret.
Qed.

Lemma attempts_ci_status P (sha : string) :
  P (GetCheckRuns sha) → attempts P (_ci_status urlopen _REPO sha).
Proof.
  intros Hget. apply attempts_bind; [by apply (attempts_request _ (GetCheckRuns sha))|].
  intros [result|]; apply attempts_ret.
Qed.

Lemma attempts_set_ci_label P (pr_number : Z) (existing : gset string) (new_label : string) :
  (∀ lbl, lbl ∈ _CI_LABELS → P (RemoveLabel pr_number lbl)) →
  P (AddLabels pr_number [new_label]) →
  attempts P (_set_ci_label urlopen _REPO pr_number existing new_label).
Proof.
  intros Hdel Hadd. apply attempts_bind.
  - apply attempts_for_each. intros lbl Hin%elem_of_elements.
    apply attempts_delete, Hdel. unfold stale_labels in Hin. set_solver.
  - intros _. case_bool_decide; [apply attempts_ret|].
    apply attempts_bind; [by apply attempts_request|]. intros _. apply attempts_ret.
Qed.

Lemma attempts_upsert_comment P (pr_number : Z) (body : string) :
  P (ListComments pr_number) →
  (∀ id, P (UpdateComment id (_BOT_COMMENT_MARKER +:+ LF +:+ body))) →
  P (CreateComment pr_number (_BOT_COMMENT_MARKER +:+ LF +:+ body)) →
  attempts P (_upsert_comment urlopen _REPO pr_number body).
Proof.
  intros Hlist Hpatch Hpost. apply attempts_bind.
  - apply attempts_bind; [by apply (attempts_request _ (ListComments pr_number))|].
    intros [comments|]; apply attempts_ret.
  - intros [id|]; [case_bool_decide|];
      (apply attempts_bind; [by apply attempts_request|]; intros _; apply attempts_ret).
Qed.

(** The calls [_handle_pr] may make for a pull request. *)
Definition handles (pr : pull) (q : request) : Prop :=
  match q with
  | GetCheckRuns sha => sha = pr_head_sha pr
  | RemoveLabel number lbl => number = pr_number pr ∧ lbl ∈ _CI_LABELS
  | AddLabels number lbls => number = pr_number pr ∧ ∃ status, lbls = [label_map status]
  | ListComments number => number = pr_number pr
  | UpdateComment _ body => String.prefix _BOT_COMMENT_MARKER body = true
  | CreateComment number body =>
      number = pr_number pr ∧ String.prefix _BOT_COMMENT_MARKER body = true
  | PutMerge number method title =>
      number = pr_number pr ∧ method = "squash" ∧
      title = commit_title (pr_number pr) (pr_title pr)
  | GetLabel _ | CreateLabel _ _ | ListOpenPulls _ => False
  end.

Lemma attempts_handle_pr (pr : pull) : attempts (handles pr) (_handle_pr urlopen _REPO pr).
Proof.
  unfold _handle_pr. cbv zeta.
  apply attempts_bind; [apply attempts_print|]. intros [].
  apply attempts_bind; [by apply attempts_ci_status|]. intros status.
  apply attempts_bind; [apply attempts_print|]. intros [].
  apply attempts_bind.
  { apply attempts_set_ci_label; [by intros lbl Hlbl|]. split; [done|by exists status]. }
  intros []. apply attempts_bind.
  { apply attempts_upsert_comment; [done|intros id; apply prefix_append|].
    split; [done|apply prefix_append]. }
  intros []. destruct (_ && _); [|apply attempts_ret].
  apply attempts_bind; [apply attempts_print|]. intros [].
  apply attempts_bind.
  { by apply (attempts_request _ (PutMerge (pr_number pr) "squash"
                                    (commit_title (pr_number pr) (pr_title pr)))). }
  intros [[[[]|] message]|]; (apply attempts_print || apply attempts_eprint).
Qed.

Lemma attempts_mono {A} (P Q : request → Prop) (m : agent Σ A) :
  (∀ q, P q → Q q) → attempts P m → attempts Q m.
Proof.
  intros HPQ Hm σ. destruct (Hm σ) as [Hc Hr]. split; [|done].
  eapply Forall_impl; [exact Hc|done].
Qed.

Lemma handles_no_listing (pr : pull) (q : request) : handles pr q → is_listing q = false.
Proof. by destruct q. Qed.

(** *** The outcome of a merge request *)

(** The header line of a pull request (line 172). *)
Definition header (pr : pull) : event :=
  Stdout ("  PR #" +:+ pretty (pr_number pr) +:+ ": " +:+ pr_title pr).

(** The three ways a run of [_handle_pr] can go, after routine calls [e0]:
    no merge is asked for; the merge is asked for and answered, and its
    outcome is reported; the merge is asked for and the call raises. *)
Definition merge_stage (pr : pull) (r : run Σ unit) : Prop :=
  let q := PutMerge (pr_number pr) "squash" (commit_title (pr_number pr) (pr_title pr)) in
  ∃ e0, Forall routine (calls e0) ∧
    (events r = e0 ∧ returns_or_raises r ∨
     (∃ reply,
        events r = e0 ++ Call q reply :: http_log _REPO q reply
                      ++ [merge_report (pr_number pr) (payload reply)] ∧
        outcome_of r = Returned tt) ∨
     (∃ exn, events r = e0 ++ [Uncaught q exn] ∧ outcome_of r = Raised exn)).

Lemma merge_stage_bind {A} (pr : pull) (m : agent Σ A) (f : A → agent Σ unit) (σ : Σ) :
  attempts routine m → (∀ a σ', merge_stage pr (f a σ')) →
  merge_stage pr ((m ≫= f) σ).
Proof.
  intros Hm Hf. destruct (Hm σ) as [Hc Hr]. unfold merge_stage, returns_or_raises in *.
  rewrite events_bind, outcome_bind.
  destruct (outcome_of (m σ)) as [a|code|exn|] eqn:Hout; try done.
  - destruct (Hf a (final (m σ))) as (e0 & He0 & Hcases).
    exists (events (m σ) ++ e0). split; [rewrite calls_app; by apply Forall_app_2|].
    destruct Hcases as [[-> Hr2]|[(reply & -> & Hret)|(exn & -> & Hraised)]].
    + left. split; [done|].
      destruct (outcome_of (f a (final (m σ)))) as [b|code|exn|]; try done.
      * by rewrite uncaught_app, Hr, Hr2.
      * destruct Hr2 as (q & σ0 & evs & Hfail & -> & Hevs).
        exists q, σ0, (events (m σ) ++ evs). split; [done|].
        split; [by rewrite (assoc_L (++))|]. by rewrite uncaught_app, Hr, Hevs.
    + right; left. exists reply. by rewrite (assoc_L (++)).
    + right; right. exists exn. by rewrite (assoc_L (++)).
  - exists (events (m σ)). split; [done|]. left. rewrite app_nil_r. by split.
Qed.

Lemma handle_pr_merge_stage (pr : pull) (σ : Σ) :
  merge_stage pr (_handle_pr urlopen _REPO pr σ).
Proof.
  unfold _handle_pr. cbv zeta.
  apply merge_stage_bind; [apply attempts_print|]. intros [] σ1.
  apply merge_stage_bind; [apply attempts_ci_status; by split|]. intros status σ2.
  apply merge_stage_bind; [apply attempts_print|]. intros [] σ3.
  apply merge_stage_bind; [apply attempts_set_ci_label; intros; by split|]. intros [] σ4.
  apply merge_stage_bind; [apply attempts_upsert_comment; intros; by split|]. intros [] σ5.
  destruct (_ && _).
  - apply merge_stage_bind; [apply attempts_print|]. intros [] σ6.
    exists []. split; [constructor|]. right.
    rewrite events_bind, outcome_bind. unfold _put. rewrite _request_cases.
    destruct (urlopen _ σ6).1 as [reply|exn]; cbn [outcome_of events final].
    + left. exists reply. cbn [app].
      by destruct (payload reply) as [[[[]|] ?]|].
    + right. by exists exn.
  - exists []. split; [constructor|]. left. by split.
Qed.

Lemma since_merge_uncaught (e0 : list event) (q : request) (exn : exception) :
  Forall routine (calls e0) → since_merge (e0 ++ [Uncaught q exn]) = None.
Proof. intros He0. by rewrite since_merge_routine. Qed.

(** Over a transport that answers every call, a procedure returns. *)
Lemma returns_when_answered (r : run Σ unit) :
  (∀ q σ0, ∃ reply, (urlopen q σ0).1 = Answered reply) →
  returns_or_raises r → outcome_of r = Returned tt.
Proof.
  intros Hanswers Hr. unfold returns_or_raises in Hr.
  destruct (outcome_of r) as [[]|code|exn|]; [done|done| |done].
  destruct Hr as (q & σ0 & evs & Hfail & _).
  destruct (Hanswers q σ0) as [reply Hreply]. congruence.
Qed.

(** A loop whose first round raises ends there. *)
Lemma for_each_raised {A} (x : A) (items : list A) (body : A → agent Σ unit)
    (σ : Σ) (exn : exception) :
  outcome_of (body x σ) = Raised exn →
  for_each (x :: items) body σ = Run (Raised exn) (final (body x σ)) (events (body x σ)).
Proof. intros Hout. cbn [for_each]. unfold mbind, agent_bind. by rewrite Hout. Qed.

(** A loop whose first round returns goes on with the next item. *)
Lemma for_each_returned {A} (x : A) (items : list A) (body : A → agent Σ unit) (σ : Σ) :
  outcome_of (body x σ) = Returned tt →
  let r := for_each items body (final (body x σ)) in
  for_each (x :: items) body σ = Run (outcome_of r) (final r) (events (body x σ) ++ events r).
Proof. intros Hout. cbn [for_each]. unfold mbind, agent_bind. by rewrite Hout. Qed.

(** C9 (as amended): when the merge request of a pull request is answered,
    with a body, with an empty body or with an HTTP error status, the line
    that follows says the merge succeeded only if the answer carries a true
    [merged] member; for every other answer it is a failure line on stderr
    with the platform's message, "unknown error" when the answer has none,
    or "no response" when there is no body.  Handling the pull request then
    returns and the loop goes on with the next one.  When the merge request
    raises instead (no connection, a timeout, a body that is not JSON),
    nothing is reported: the exception leaves [_handle_pr] and the loop,
    and no further pull request is handled. *)
Theorem merge_outcome_reported (pr : pull) (σ : Σ) :
  let handled := _handle_pr urlopen _REPO pr σ in
  (∀ n reply rest,
     since_merge (events handled) = Some (n, reply, rest) →
     let q := PutMerge n "squash" (commit_title n (pr_title pr)) in
     n = pr_number pr ∧
     (reports_merged (payload reply) →
        rest = http_log _REPO q reply
               ++ [Stdout ("    PR #" +:+ pretty n +:+ " merged successfully.")]) ∧
     (¬ reports_merged (payload reply) →
        rest = http_log _REPO q reply
               ++ [Stderr ("    Auto-merge failed for PR #" +:+ pretty n +:+ ": "
                           +:+ failure_message (payload reply))]) ∧
     outcome_of handled = Returned tt ∧
     ∀ prs,
       let next := for_each prs (_handle_pr urlopen _REPO) (final handled) in
       for_each (pr :: prs) (_handle_pr urlopen _REPO) σ
         = Run (outcome_of next) (final next) (events handled ++ events next)) ∧
  (∀ n method title exn,
     Uncaught (PutMerge n method title) exn ∈ events handled →
     since_merge (events handled) = None ∧
     last (events handled) = Some (Uncaught (PutMerge n method title) exn) ∧
     outcome_of handled = Raised exn ∧
     ∀ prs,
       for_each (pr :: prs) (_handle_pr urlopen _REPO) σ
         = Run (Raised exn) (final handled) (events handled)).
Proof.
  cbv zeta.
  destruct (handle_pr_merge_stage pr σ) as (e0 & He0 & Hcases). split.
  - intros n reply rest Hsince.
    destruct Hcases as [[Hevs _]|[(reply0 & Hevs & Hret)|(exn & Hevs & _)]];
      rewrite Hevs in Hsince.
    + rewrite <- (app_nil_r e0), since_merge_routine in Hsince by done. discriminate.
    + rewrite since_merge_routine in Hsince by done. cbn in Hsince.
      injection Hsince as <- <- <-. split; [done|].
      split; [intros Hm; by rewrite merge_report_merged|].
      split; [intros Hm; by rewrite merge_report_failed|].
      split; [done|]. intros prs. by apply for_each_returned.
    + by rewrite since_merge_uncaught in Hsince.
  - intros n method title exn Hin.
    assert (Hmerge : ¬ routine (PutMerge n method title)) by (by intros [? _]).
    assert (Hnot : ∀ reply, Uncaught (PutMerge n method title) exn ∉ http_log _REPO
              (PutMerge (pr_number pr) "squash" (commit_title (pr_number pr) (pr_title pr)))
              reply ++ [merge_report (pr_number pr) (payload reply)]).
    { intros reply. destruct reply as [[[[[]|] ?]|]|]; cbn; set_solver. }
    assert (He0' : Uncaught (PutMerge n method title) exn ∉ e0).
    { intros Hin0. apply Hmerge.
      apply (proj1 (Forall_forall _ _) He0).
      apply list_elem_of_omap. by eexists. }
    destruct Hcases as [[Hevs _]|[(reply0 & Hevs & Hret)|(exn0 & Hevs & Hraised)]];
      rewrite Hevs in Hin |- *.
    + done.
    + apply elem_of_app in Hin as [?|Hin]; [done|].
      apply elem_of_cons in Hin as [?|Hin]; [done|]. by apply Hnot in Hin.
    + apply elem_of_app in Hin as [?|Hin]; [done|].
      apply list_elem_of_singleton in Hin. injection Hin as -> -> -> ->.
      split; [by apply since_merge_uncaught|]. split; [apply last_snoc|].
      split; [done|]. intros prs. rewrite <- Hevs. by apply for_each_raised.
Qed.

(** *** How a run of [main] ends *)

(** How a run relates to what it met.  It returns only if every call was
    answered and no page of the listing failed; it exits, with status 1,
    only if a page failed; it raises only at a call the transport failed,
    its last; and it runs out of fuel only after [fuel] full pages. *)
Definition run_verdict {A} (fuel : nat) (r : run Σ A) : Prop :=
  match outcome_of r with
  | Returned _ => (None ∉ listed_pages (events r)) ∧ uncaught (events r) = []
  | Exited code =>
      code = 1 ∧ None ∈ listed_pages (events r) ∧ uncaught (events r) = []
  | Raised exn =>
      ∃ q σ0 evs,
        (urlopen q σ0).1 = Failed exn ∧
        events r = evs ++ [Uncaught q exn] ∧
        uncaught evs = [] ∧ None ∉ listed_pages evs
  | OutOfFuel =>
      Forall full_page (listed_pages (events r)) ∧
      length (listed_pages (events r)) = fuel
  end.

Definition no_listing (q : request) : Prop := is_listing q = false.

Lemma listed_pages_snoc_uncaught (evs : list event) (q : request) (exn : exception) :
  listed_pages (evs ++ [Uncaught q exn]) = listed_pages evs.
Proof. rewrite listed_pages_app. cbn. by rewrite app_nil_r. Qed.

(** Before the listing: a procedure that asks for no page. *)
Lemma run_verdict_prefix {A B} (fuel : nat) (m : agent Σ A) (f : A → agent Σ B) (σ : Σ) :
  attempts no_listing m → (∀ a σ', run_verdict fuel (f a σ')) →
  run_verdict fuel ((m ≫= f) σ).
Proof.
  intros Hm Hf. destruct (Hm σ) as [Hc Hr]. unfold run_verdict, returns_or_raises in *.
  apply listed_pages_no_listing in Hc.
  rewrite events_bind, outcome_bind.
  destruct (outcome_of (m σ)) as [a|code|exn|]; try done.
  - specialize (Hf a (final (m σ))). rewrite listed_pages_app, uncaught_app, Hc, Hr.
    cbn [app].
    destruct (outcome_of (f a (final (m σ)))) as [b|code|exn|]; try done.
    destruct Hf as (q & σ0 & evs & Hfail & -> & Hevs & Hpages).
    exists q, σ0, (events (m σ) ++ evs). split; [done|].
    split; [by rewrite (assoc_L (++))|].
    by rewrite uncaught_app, listed_pages_app, Hr, Hevs, Hc.
  - destruct Hr as (q & σ0 & evs & Hfail & Hevs & Hunc). rewrite app_nil_r.
    exists q, σ0, evs. split; [done|]. split; [done|]. split; [done|].
    rewrite Hevs, listed_pages_snoc_uncaught in Hc. rewrite Hc. apply not_elem_of_nil.
Qed.

(** After the listing: procedures that ask for no page. *)
Lemma run_verdict_suffix {A B} (fuel : nat) (m : agent Σ A) (f : A → agent Σ B) (σ : Σ) :
  run_verdict fuel (m σ) → (∀ a, attempts no_listing (f a)) →
  run_verdict fuel ((m ≫= f) σ).
Proof.
  intros Hm Hf. unfold run_verdict in *. rewrite events_bind, outcome_bind.
  destruct (outcome_of (m σ)) as [a|code|exn|]; rewrite ?app_nil_r; try done.
  destruct Hm as [Hpages Hunc].
  destruct (Hf a (final (m σ))) as [Hc Hr]. unfold returns_or_raises in Hr.
  apply listed_pages_no_listing in Hc.
  rewrite listed_pages_app, uncaught_app, Hc, Hunc, app_nil_r. cbn [app].
  destruct (outcome_of (f a (final (m σ)))) as [b|code|exn|]; try done.
  destruct Hr as (q & σ0 & evs & Hfail & Hevs & Hunc2).
  exists q, σ0, (events (m σ) ++ evs). split; [done|].
  split; [by rewrite Hevs, (assoc_L (++))|].
  rewrite Hevs, listed_pages_snoc_uncaught in Hc.
  by rewrite uncaught_app, listed_pages_app, Hunc, Hunc2, Hc, !app_nil_r.
Qed.

Lemma fetch_open_prs_verdict (fuel : nat) (page : Z) (prs : list pull) (σ : Σ) :
  run_verdict fuel (fetch_open_prs urlopen _REPO fuel page prs σ).
Proof.
  revert page prs σ. induction fuel as [|fuel IH]; intros page prs σ.
  { split; [constructor|done]. }
  unfold run_verdict. cbn [fetch_open_prs].
  rewrite outcome_bind, events_bind. unfold _get. rewrite _request_cases.
  destruct (urlopen (ListOpenPulls page) σ) as [[reply|exn] σ'] eqn:Hopen;
    cbn [fst snd outcome_of events final].
  2:{ exists (ListOpenPulls page), σ, []. rewrite Hopen.
      repeat split; [done..|apply not_elem_of_nil]. }
  assert (Hlisted : ∀ evs, listed_pages ((Call (ListOpenPulls page) reply
                      :: http_log _REPO (ListOpenPulls page) reply) ++ evs)
                    = payload reply :: listed_pages evs).
  { intros evs. rewrite listed_pages_app. cbn. by rewrite listed_pages_http_log. }
  assert (Huncaught : ∀ evs, uncaught ((Call (ListOpenPulls page) reply
                        :: http_log _REPO (ListOpenPulls page) reply) ++ evs)
                      = uncaught evs).
  { intros evs. rewrite uncaught_app. by destruct reply. }
  rewrite Hlisted, Huncaught. destruct (payload reply) as [page_data|] eqn:Hpayload.
  - case_bool_decide as Hshort.
    + cbn. split; [|done]. by intros [?|?%elem_of_nil]%elem_of_cons.
    + specialize (IH (page + 1) (prs ++ page_data) σ'). unfold run_verdict in IH.
      destruct (outcome_of (fetch_open_prs urlopen _REPO fuel (page + 1)
                              (prs ++ page_data) σ')) as [a|code|exn|].
      * destruct IH as [Hpages Hunc]. split; [|done]. by intros [?|?]%elem_of_cons.
      * destruct IH as (-> & Hin & Hunc). split; [done|].
        split; [by apply elem_of_cons; right|done].
      * destruct IH as (q & σ0 & evs & Hfail & -> & Hunc & Hpages).
        exists q, σ0, ((Call (ListOpenPulls page) reply
                         :: http_log _REPO (ListOpenPulls page) reply) ++ evs).
        split; [done|]. split; [by rewrite (assoc_L (++))|].
        rewrite Hlisted, Huncaught. split; [done|]. by intros [?|?]%elem_of_cons.
      * destruct IH as [Hfull Hlen]. split; [|cbn; by rewrite Hlen].
        constructor; [|done]. exists page_data. split; [done|lia].
  - cbn. split; [done|]. split; [by apply elem_of_cons; left|done].
Qed.

Lemma main_verdict (fuel : nat) (σ : Σ) :
  _TOKEN ≠ "" → _REPO ≠ "" → run_verdict fuel (main urlopen _TOKEN _REPO fuel σ).
Proof.
  intros Htoken Hrepo. unfold main. rewrite !bool_decide_eq_false_2 by done.
  assert (Hensure : ∀ label color,
            attempts no_listing (_ensure_label_exists urlopen _REPO label color))
    by (intros; by apply attempts_ensure_label_exists).
  apply run_verdict_prefix; [apply attempts_print|]. intros [] σ1.
  apply run_verdict_prefix; [apply Hensure|]. intros [] σ2.
  apply run_verdict_prefix; [apply Hensure|]. intros [] σ3.
  apply run_verdict_prefix; [apply Hensure|]. intros [] σ4.
  apply run_verdict_suffix; [apply fetch_open_prs_verdict|]. intros prs.
  apply attempts_bind; [apply attempts_print|]. intros [].
  apply attempts_bind; [|intros []; apply attempts_print].
  apply attempts_for_each. intros pr _.
  eapply attempts_mono; [apply handles_no_listing|apply attempts_handle_pr].
Qed.

(** Handling a pull request starts with its header line. *)
Lemma handle_pr_header (pr : pull) (σ : Σ) :
  head (events (_handle_pr urlopen _REPO pr σ)) = Some (header pr).
Proof. unfold _handle_pr. cbv zeta. by rewrite events_bind. Qed.

(** A loop over the pull requests that returns has visited every one. *)
Lemma for_each_visits (prs : list pull) (σ : Σ) :
  outcome_of (for_each prs (_handle_pr urlopen _REPO) σ) = Returned tt →
  ∀ pr, pr ∈ prs → header pr ∈ events (for_each prs (_handle_pr urlopen _REPO) σ).
Proof.
  revert σ. induction prs as [|x prs IH]; intros σ Hret pr Hin.
  { by apply elem_of_nil in Hin. }
  cbn [for_each] in *. rewrite outcome_bind in Hret. rewrite events_bind.
  destruct (outcome_of (_handle_pr urlopen _REPO x σ)) as [[]|code|exn|] eqn:Hout;
    try done.
  apply elem_of_app. apply elem_of_cons in Hin as [->|Hin].
  - left. pose proof (handle_pr_header x σ) as Hhead.
    destruct (events (_handle_pr urlopen _REPO x σ)) as [|e evs]; [done|].
    injection Hhead as ->. by left.
  - right. by apply IH.
Qed.

(** C6 (as amended): a call that fails with an HTTP error status is taken
    as an empty or negative result and the run goes on; a call that raises
    anything else ends the run.  [_request] returns [None] for an HTTP
    error and raises what the transport raises.  Failed check runs give
    [pending] and a failed comment listing gives no bot comment.
    Provisioning a label, handling a pull request and the loop over the
    pull requests return unless one of their calls raises, and a loop that
    returns has visited every pull request; so they return over a
    transport that answers every call, with an error status or not.  With
    both configuration values set, [main] leaves through [sys.exit] only
    with status 1 and only after a page of the open-PR list failed, it
    raises only at a call that was not answered, and it returns only when
    every call was answered and no page failed. *)
Theorem failures_do_not_abort (fuel : nat) (σ : Σ) :
  _TOKEN ≠ "" → _REPO ≠ "" →
  (∀ q σ',
     match (urlopen q σ').1 with
     | Answered reply => outcome_of (_request urlopen _REPO q σ') = Returned (payload reply)
     | Failed exn => outcome_of (_request urlopen _REPO q σ') = Raised exn
     end) ∧
  (∀ sha σ' reply,
     (urlopen (GetCheckRuns sha) σ').1 = Answered reply → payload reply = None →
     outcome_of (_ci_status urlopen _REPO sha σ') = Returned pending) ∧
  (∀ pr_number σ' reply,
     (urlopen (ListComments pr_number) σ').1 = Answered reply → payload reply = None →
     outcome_of (_bot_comment_id urlopen _REPO pr_number σ') = Returned None) ∧
  (∀ label color σ',
     returns_or_raises (_ensure_label_exists urlopen _REPO label color σ')) ∧
  (∀ pr σ', returns_or_raises (_handle_pr urlopen _REPO pr σ')) ∧
  (∀ prs σ',
     returns_or_raises (for_each prs (_handle_pr urlopen _REPO) σ') ∧
     (outcome_of (for_each prs (_handle_pr urlopen _REPO) σ') = Returned tt →
      ∀ pr, pr ∈ prs →
        Stdout ("  PR #" +:+ pretty (pr_number pr) +:+ ": " +:+ pr_title pr)
          ∈ events (for_each prs (_handle_pr urlopen _REPO) σ'))) ∧
  ((∀ q σ0, ∃ reply, (urlopen q σ0).1 = Answered reply) →
   ∀ pr prs σ',
     outcome_of (_handle_pr urlopen _REPO pr σ') = Returned tt ∧
     outcome_of (for_each prs (_handle_pr urlopen _REPO) σ') = Returned tt) ∧
  match outcome_of (main urlopen _TOKEN _REPO fuel σ) with
  | Returned _ =>
      (None ∉ listed_pages (events (main urlopen _TOKEN _REPO fuel σ))) ∧
      uncaught (events (main urlopen _TOKEN _REPO fuel σ)) = []
  | Exited code =>
      code = 1 ∧
      None ∈ listed_pages (events (main urlopen _TOKEN _REPO fuel σ)) ∧
      uncaught (events (main urlopen _TOKEN _REPO fuel σ)) = []
  | Raised exn =>
      ∃ q σ0 evs,
        (urlopen q σ0).1 = Failed exn ∧
        events (main urlopen _TOKEN _REPO fuel σ) = evs ++ [Uncaught q exn] ∧
        uncaught evs = [] ∧ None ∉ listed_pages evs
  | OutOfFuel =>
      Forall full_page (listed_pages (events (main urlopen _TOKEN _REPO fuel σ))) ∧
      length (listed_pages (events (main urlopen _TOKEN _REPO fuel σ))) = fuel
  end.
Proof.
  intros Htoken Hrepo. split.
  { intros q σ'. rewrite _request_cases. by destruct (urlopen q σ').1. }
  split.
  { intros sha σ' reply Hreply Hfail. unfold _ci_status, _get.
    by rewrite outcome_bind, _request_cases, Hreply, Hfail. }
  split.
  { intros n σ' reply Hreply Hfail. unfold _bot_comment_id, _get.
    by rewrite outcome_bind, _request_cases, Hreply, Hfail. }
  split.
  { intros label color σ'.
    by apply (attempts_ensure_label_exists (λ _, True)). }
  assert (Hloop : ∀ prs σ',
            returns_or_raises (for_each prs (_handle_pr urlopen _REPO) σ')).
  { intros prs σ'. apply (attempts_for_each (λ _, True)). intros pr _.
    eapply attempts_mono; [|apply attempts_handle_pr]. done. }
  split; [intros pr σ'; apply attempts_handle_pr|].
  split; [intros prs σ'; split; [apply Hloop|apply for_each_visits]|].
  split; [|by apply main_verdict].
  intros Hanswers pr prs σ'.
  split; apply returns_when_answered; (done || apply attempts_handle_pr || apply Hloop).
Qed.

End Raising.

(** ** A reference model of the hosting platform

    The platform is outside the repository.  This model follows the
    contract section 6 of the specification asks of it: labels are kept per
    issue, comments get fresh identifiers and are listed in full, in the
    order they were made, and a call on something that is not there is
    answered with a 404.  It is the platform of the properties that speak
    about the state a procedure leaves behind. *)

Module GitHub.

Record open_pull := OpenPull {
  op_number : Z;
  op_title : string;
  op_head_sha : string
}.

Record stored_comment := StoredComment {
  sc_issue : Z;
  sc_id : Z;
  sc_body : string
}.

Record state := State {
  registry : gset string;
  pulls : list open_pull;
  issue_labels : gmap Z (gset string);
  runs : gmap string (list check_run);
  stored_comments : list stored_comment;
  next_comment_id : Z;
  merges : list (Z * string)
}.

#[global] Instance stored_comment_eq_dec : EqDecision stored_comment.
Proof. solve_decision. Defined.

Definition labels_on (σ : state) (number : Z) : gset string :=
  default ∅ (issue_labels σ !! number).

Definition set_labels (σ : state) (number : Z) (labels : gset string) : state :=
  State (registry σ) (pulls σ) (<[number := labels]> (issue_labels σ)) (runs σ)
        (stored_comments σ) (next_comment_id σ) (merges σ).

Definition set_registry (σ : state) (labels : gset string) : state :=
  State labels (pulls σ) (issue_labels σ) (runs σ)
        (stored_comments σ) (next_comment_id σ) (merges σ).

Definition set_comments (σ : state) (cs : list stored_comment) (next : Z) : state :=
  State (registry σ) (pulls σ) (issue_labels σ) (runs σ) cs next (merges σ).

Definition close_pull (σ : state) (number : Z) (title : string) : state :=
  State (registry σ) (filter (λ p, op_number p ≠ number) (pulls σ))
        (issue_labels σ) (runs σ) (stored_comments σ) (next_comment_id σ)
        (merges σ ++ [(number, title)]).

(** A comment as the listing shows it. *)
Definition shown (c : stored_comment) : comment :=
  Comment (sc_id c) (Some (sc_body c)).

(** The complete listing of the comments of an issue. *)
Definition comments_on (σ : state) (number : Z) : list comment :=
  shown <$> filter (λ c, sc_issue c = number) (stored_comments σ).

Definition edit (id : Z) (body : string) (c : stored_comment) : stored_comment :=
  if bool_decide (sc_id c = id) then StoredComment (sc_issue c) id body else c.

Definition listed (σ : state) (p : open_pull) : pull :=
  Pull (op_number p) (op_title p) (op_head_sha p)
       (Some (elements (labels_on σ (op_number p)))).

(** Page [page] of the open pull requests, a hundred to a page. *)
Definition page_of (page : Z) (σ : state) : list pull :=
  listed σ <$> take 100 (drop (100 * (Z.to_nat page - 1)) (pulls σ)).

Definition serve (q : request) (σ : state) : http_reply (answer q) * state :=
  match q return http_reply (answer q) * state with
  | GetLabel label =>
      if bool_decide (label ∈ registry σ) then (Ok2xx (Some tt), σ)
      else (HttpError 404 "Not Found", σ)
  | CreateLabel name color =>
      if bool_decide (name ∈ registry σ) then (HttpError 422 "Validation Failed", σ)
      else (Ok2xx (Some tt), set_registry σ (registry σ ∪ {[ name ]}))
  | ListOpenPulls page => (Ok2xx (Some (page_of page σ)), σ)
  | GetCheckRuns sha =>
      (Ok2xx (Some (CheckRunsPage (Some (default [] (runs σ !! sha))))), σ)
  | RemoveLabel number lbl =>
      if bool_decide (lbl ∈ labels_on σ number)
      then (Ok2xx (Some tt), set_labels σ number (labels_on σ number ∖ {[ lbl ]}))
      else (HttpError 404 "Label does not exist", σ)
  | AddLabels number lbls =>
      (Ok2xx (Some tt), set_labels σ number (labels_on σ number ∪ list_to_set lbls))
  | ListComments number => (Ok2xx (Some (comments_on σ number)), σ)
  | UpdateComment id body =>
      if bool_decide (id ∈ sc_id <$> stored_comments σ)
      then (Ok2xx (Some tt),
            set_comments σ (edit id body <$> stored_comments σ) (next_comment_id σ))
      else (HttpError 404 "Not Found", σ)
  | CreateComment number body =>
      (Ok2xx (Some tt),
       set_comments σ
         (stored_comments σ ++ [StoredComment number (next_comment_id σ) body])
         (next_comment_id σ + 1))
  | PutMerge number method title =>
      if bool_decide (number ∈ op_number <$> pulls σ)
      then (Ok2xx (Some (MergeResult (Some true)
                           (Some "Pull Request successfully merged"))),
            close_pull σ number title)
      else (HttpError 404 "Not Found", σ)
  end.

(** Comment identifiers are positive, distinct and below the next one. *)
Definition well_formed (σ : state) : Prop :=
  NoDup (sc_id <$> stored_comments σ) ∧
  Forall (λ c, 0 < sc_id c < next_comment_id σ) (stored_comments σ) ∧
  0 < next_comment_id σ.

#[global] Instance well_formed_dec (σ : state) : Decision (well_formed σ).
Proof. unfold well_formed. apply _. Defined.

(** *** Labels on the reference platform *)

Lemma labels_on_set_labels (σ : state) (number other : Z) (labels : gset string) :
  labels_on (set_labels σ number labels) other
    = if decide (other = number) then labels else labels_on σ other.
Proof.
  unfold labels_on, set_labels. cbn. rewrite lookup_insert.
  repeat case_decide; done || congruence.
Qed.

Lemma serve_remove_label (σ σ' : state) (number : Z) (lbl : string)
    (reply : http_reply (answer (RemoveLabel number lbl))) :
  serve (RemoveLabel number lbl) σ = (reply, σ') →
  labels_on σ' number = labels_on σ number ∖ {[ lbl ]} ∧
  ∀ other, other ≠ number → labels_on σ' other = labels_on σ other.
Proof.
  cbn. case_bool_decide as Hin; intros [= <- <-].
  - split; [by rewrite labels_on_set_labels, decide_True|].
    intros other Hne. by rewrite labels_on_set_labels, decide_False.
  - split; [set_solver|done].
Qed.

Lemma serve_add_labels (σ σ' : state) (number : Z) (lbls : list string)
    (reply : http_reply (answer (AddLabels number lbls))) :
  serve (AddLabels number lbls) σ = (reply, σ') →
  labels_on σ' number = labels_on σ number ∪ list_to_set lbls ∧
  ∀ other, other ≠ number → labels_on σ' other = labels_on σ other.
Proof.
  cbn. intros [= <- <-].
  split; [by rewrite labels_on_set_labels, decide_True|].
  intros other Hne. by rewrite labels_on_set_labels, decide_False.
Qed.

(** The labels [_set_ci_label] leaves on the platform, whatever snapshot
    [existing] it was given. *)
Lemma set_ci_label_on_platform (repo : string) (number : Z) (existing : gset string)
    (new_label : string) (σ : state) :
  wp (_set_ci_label (answering serve) repo number existing new_label) σ (λ _ σ' _,
    labels_on σ' number
      = (labels_on σ number ∖ stale_labels existing new_label)
        ∪ (if bool_decide (new_label ∈ existing) then ∅ else {[ new_label ]}) ∧
    ∀ other, other ≠ number → labels_on σ' other = labels_on σ other).
Proof.
  unfold _set_ci_label. cbv zeta. apply wp_bind.
  eapply wp_mono.
  { apply (wp_for_each _ _ _ (λ visited σ1 _,
      labels_on σ1 number = labels_on σ number ∖ list_to_set visited ∧
      ∀ other, other ≠ number → labels_on σ1 other = labels_on σ other)).
    { split; [set_solver|done]. }
    intros visited lbl σ1 e1 [Hhere Hothers]. unfold _delete. apply wp_bind.
    apply (wp_request serve repo (RemoveLabel number lbl)). intros reply σ2 Hserve.
    apply wp_ret. apply serve_remove_label in Hserve as [Hhere2 Hothers2]. split.
    - rewrite Hhere2, Hhere, list_to_set_app_L. set_solver.
    - intros other Hne. rewrite Hothers2, Hothers; done. }
  intros [] σ1 e1 [Hhere Hothers]. cbv beta.
  rewrite list_to_set_elements_L in Hhere. case_bool_decide.
  - apply wp_ret. split; [set_solver|done].
  - apply wp_bind. apply (wp_request serve repo (AddLabels number [new_label])).
    intros reply σ2 Hserve. apply wp_ret.
    apply serve_add_labels in Hserve as [Hhere2 Hothers2]. split.
    + rewrite Hhere2, Hhere. set_solver.
    + intros other Hne. rewrite Hothers2, Hothers; done.
Qed.

(** The platform carries out the delta of the transcript. *)
Lemma platform_applies_delta (repo : string) (number : Z) (existing : gset string)
    (new_label : string) (σ : state) :
  labels_on (final (_set_ci_label (answering serve) repo number existing new_label σ)) number
    = apply_delta (labels_on σ number)
        (events (_set_ci_label (answering serve) repo number existing new_label σ)).
Proof.
  destruct (wp_and _ _ _ _
              (set_ci_label_on_platform repo number existing new_label σ)
              (set_ci_label_delta serve repo number existing new_label σ))
    as ([] & σ' & evs & -> & [Hhere _] & Hremoved & Hadded).
  cbn [final events]. unfold apply_delta. by rewrite Hhere, Hremoved, Hadded.
Qed.

End GitHub.

(** ** Label reconciliation *)

Module Scenario.
Import GitHub.

(** Scenario 4 of the specification: pull request 7 carries [ci-failing]
    and [auto-merge], its checks are green, and it has an earlier bot
    comment; pull request 8 is new. *)
Definition busy : state :=
  State {[ "ci-failing" ]}
        [OpenPull 7 "Add parser" "0123456789abcdef"; OpenPull 8 "WIP" "ffff"]
        {[ 7 := {[ "ci-failing"; "auto-merge" ]} ]}
        {[ "0123456789abcdef" := [Classifier.run_ok "success"; Classifier.run_ok "skipped"] ]}
        [StoredComment 7 1 "hello";
         StoredComment 7 2 (_BOT_COMMENT_MARKER +:+ LF +:+ "old status")]
        3 [].

(** Pull request 7 with two comments that both carry the marker. *)
Definition twice_marked : state :=
  State ∅ [OpenPull 7 "Add parser" "0123456789abcdef"] ∅ ∅
        [StoredComment 7 1 (_BOT_COMMENT_MARKER +:+ LF +:+ "first");
         StoredComment 7 2 (_BOT_COMMENT_MARKER +:+ LF +:+ "second")]
        3 [].

(** A platform that answers every call with an HTTP error status. *)
Definition unavailable (q : request) (σ : unit) : http_reply (answer q) * unit :=
  (HttpError 503 "Service Unavailable", σ).

(** A transport without a connection: every call raises. *)
Definition offline (q : request) (σ : unit) : response (answer q) * unit :=
  (Failed (URLError "Connection refused"), σ).

End Scenario.

(** C4: once the delta of [_set_ci_label] is applied to the labels it was
    computed from, exactly one CI-state label is left, the target.  This
    holds for the delta read off the transcript on any platform, and for
    the labels the reference platform ends with. *)
Theorem label_exclusivity (new_label : string) :
  new_label ∈ _CI_LABELS →
  (∀ Σ (serve : ∀ q, Σ → http_reply (answer q) * Σ) (repo : string)
     (number : Z) (existing : gset string) (σ : Σ),
     let after :=
       apply_delta existing
         (events (_set_ci_label (answering serve) repo number existing new_label σ)) in
     after ∩ _CI_LABELS = {[ new_label ]} ∧ size (after ∩ _CI_LABELS) = 1%nat) ∧
  (∀ (repo : string) (number : Z) (σ : GitHub.state),
     let σ' :=
       final (_set_ci_label (answering GitHub.serve) repo number
                (GitHub.labels_on σ number) new_label σ) in
     GitHub.labels_on σ' number ∩ _CI_LABELS = {[ new_label ]} ∧
     size (GitHub.labels_on σ' number ∩ _CI_LABELS) = 1%nat).
Proof.
  intros Hci. split.
  - intros Σ serve repo number existing σ. cbv zeta.
    rewrite apply_own_delta, reconciled_exclusive by done.
    split; [done|apply size_singleton].
  - intros repo number σ. cbv zeta.
    rewrite GitHub.platform_applies_delta, apply_own_delta, reconciled_exclusive by done.
    split; [done|apply size_singleton].
Qed.

Lemma label_exclusivity_witness :
  let σ' :=
    final (_set_ci_label (answering GitHub.serve) "o/r" 7
             (GitHub.labels_on Scenario.busy 7) "ci-passing" Scenario.busy) in
  GitHub.labels_on σ' 7 ∩ _CI_LABELS = {[ "ci-passing" ]} ∧
  size (GitHub.labels_on σ' 7 ∩ _CI_LABELS) = 1%nat.
Proof.
  apply (label_exclusivity "ci-passing"). by_evaluation.
Defined.

(** C7: reconciling again, with the same target, the label set obtained by
    applying a first delta asks for nothing: no removal, no addition, no
    call at all.  This holds for the delta applied as a set operation on
    any platform, and for the labels the reference platform ends with. *)
Theorem reconcile_idempotent (number : Z) (new_label : string) :
  (∀ Σ (serve : ∀ q, Σ → http_reply (answer q) * Σ) (repo : string)
     (existing : gset string) (σ σ' : Σ),
     let after :=
       apply_delta existing
         (events (_set_ci_label (answering serve) repo number existing new_label σ)) in
     let again := events (_set_ci_label (answering serve) repo number after new_label σ') in
     removed_labels again = ∅ ∧ added_labels again = ∅ ∧ again = []) ∧
  (∀ (repo : string) (σ : GitHub.state),
     let σ' :=
       final (_set_ci_label (answering GitHub.serve) repo number
                (GitHub.labels_on σ number) new_label σ) in
     let again :=
       events (_set_ci_label (answering GitHub.serve) repo number
                 (GitHub.labels_on σ' number) new_label σ') in
     removed_labels again = ∅ ∧ added_labels again = ∅ ∧ again = []).
Proof.
  assert (Hsilent : ∀ Σ (serve : ∀ q, Σ → http_reply (answer q) * Σ) repo
            (existing : gset string) (σ' : Σ),
            events (_set_ci_label (answering serve) repo number
                      ((existing ∖ stale_labels existing new_label) ∪ {[ new_label ]})
                      new_label σ') = []).
  { intros Σ serve repo existing σ'.
    rewrite set_ci_label_silent; [done|apply reconciled_stale|set_solver]. }
  split.
  - intros Σ serve repo existing σ σ'. cbv zeta.
    by rewrite apply_own_delta, Hsilent.
  - intros repo σ. cbv zeta.
    by rewrite GitHub.platform_applies_delta, apply_own_delta, Hsilent.
Qed.

(** C8: with a CI-state label as target, a label that is not a CI-state
    label is neither removed nor added by [_set_ci_label], so applying the
    delta keeps it as it was; on the reference platform the pull request
    carries it afterwards exactly when it carried it before, whatever
    snapshot of the labels the procedure was given. *)
Theorem non_ci_labels_untouched (new_label lbl : string) :
  new_label ∈ _CI_LABELS → lbl ∉ _CI_LABELS →
  (∀ Σ (serve : ∀ q, Σ → http_reply (answer q) * Σ) (repo : string)
     (number : Z) (existing : gset string) (σ : Σ),
     let evs := events (_set_ci_label (answering serve) repo number existing new_label σ) in
     (lbl ∉ removed_labels evs) ∧ (lbl ∉ added_labels evs) ∧
     (lbl ∈ apply_delta existing evs ↔ lbl ∈ existing)) ∧
  (∀ (repo : string) (number : Z) (existing : gset string) (σ : GitHub.state),
     let σ' :=
       final (_set_ci_label (answering GitHub.serve) repo number existing new_label σ) in
     lbl ∈ GitHub.labels_on σ' number ↔ lbl ∈ GitHub.labels_on σ number).
Proof.
  intros Hci Hlbl.
  assert (Hne : lbl ≠ new_label) by (intros ->; done).
  assert (Hdelta : ∀ Σ (serve : ∀ q, Σ → http_reply (answer q) * Σ) repo number
            (existing : gset string) (σ : Σ),
            let evs :=
              events (_set_ci_label (answering serve) repo number existing new_label σ) in
            (lbl ∉ removed_labels evs) ∧ (lbl ∉ added_labels evs)).
  { intros Σ serve repo number existing σ.
    destruct (set_ci_label_delta serve repo number existing new_label σ)
      as ([] & σ' & evs & -> & Hremoved & Hadded).
    cbn [events]. rewrite Hremoved, Hadded. unfold stale_labels.
    split; [set_solver|]. case_bool_decide; set_solver. }
  split.
  - intros Σ serve repo number existing σ. cbv zeta.
    destruct (Hdelta Σ serve repo number existing σ) as [Hrem Hadd].
    split; [done|]. split; [done|]. unfold apply_delta. set_solver.
  - intros repo number existing σ. cbv zeta.
    rewrite GitHub.platform_applies_delta.
    destruct (Hdelta _ GitHub.serve repo number existing σ) as [Hrem Hadd].
    unfold apply_delta. set_solver.
Qed.

(** [auto-merge] on pull request 7 of the scenario outlives the switch from
    [ci-failing] to [ci-passing]. *)
Lemma non_ci_labels_untouched_witness :
  let σ' :=
    final (_set_ci_label (answering GitHub.serve) "o/r" 7
             (GitHub.labels_on Scenario.busy 7) "ci-passing" Scenario.busy) in
  _LABEL_AUTO_MERGE ∈ GitHub.labels_on σ' 7 ↔
  _LABEL_AUTO_MERGE ∈ GitHub.labels_on Scenario.busy 7.
Proof.
  apply (non_ci_labels_untouched "ci-passing" _LABEL_AUTO_MERGE); by_evaluation.
Defined.

(** ** The comment upsert on the reference platform *)

Module CommentUpsert.
Import GitHub.

(** A comment that carries the marker. *)
Definition is_marked (c : comment) : Prop := marked c = true.

(** The body [_upsert_comment] composes (line 154). *)
Definition full_body (body : string) : string :=
  _BOT_COMMENT_MARKER +:+ LF +:+ body.

(** A listing in which the comment [id] got a new body, in place. *)
Definition rewritten (id : Z) (body : string) (c : comment) : comment :=
  if bool_decide (comment_id c = id) then Comment id (Some body) else c.

Lemma contains_prefix (needle haystack : string) :
  String.prefix needle haystack = true → contains needle haystack = true.
Proof. intros H. destruct haystack; cbn [contains]; by rewrite H. Qed.

Lemma marked_full_body (id : Z) (body : string) :
  is_marked (Comment id (Some (full_body body))).
Proof. apply contains_prefix, prefix_append. Qed.

Lemma find_marked (l : list comment) :
  List.find marked l = head (filter is_marked l).
Proof.
  induction l as [|c l IH]; [done|]. cbn [List.find]. rewrite filter_cons.
  case_decide as Hc; unfold is_marked in Hc.
  - by rewrite Hc.
  - apply not_true_is_false in Hc. by rewrite Hc.
Qed.

Lemma NoDup_fmap_filter {A B} (f : A → B) (P : A → Prop) `{!∀ x, Decision (P x)}
    (l : list A) :
  NoDup (f <$> l) → NoDup (f <$> filter P l).
Proof.
  induction l as [|x l IH]; [done|]. rewrite fmap_cons, NoDup_cons.
  intros [Hx Hl]. rewrite filter_cons. case_decide; [|auto].
  rewrite fmap_cons. apply NoDup_cons. split; [|auto].
  intros (y & Hy & Hin%list_elem_of_filter)%list_elem_of_fmap.
  apply Hx. rewrite Hy. apply list_elem_of_fmap_2. tauto.
Qed.

(** Rewriting the one marked comment of a listing in place leaves one marked
    comment, the rewritten one. *)
Lemma rewrite_only_marked (l : list comment) (c0 : comment) (body : string) :
  NoDup (comment_id <$> l) → filter is_marked l = [c0] →
  filter is_marked (rewritten (comment_id c0) (full_body body) <$> l)
    = [Comment (comment_id c0) (Some (full_body body))].
Proof.
  induction l as [|c l IH]; [done|].
  rewrite fmap_cons, NoDup_cons. intros [Hc Hl]. rewrite filter_cons, fmap_cons.
  assert (Hkeep : ∀ k : list comment, comment_id c0 ∉ comment_id <$> k →
            rewritten (comment_id c0) (full_body body) <$> k = k).
  { intros k Hk. induction k as [|x k IHk]; [done|].
    rewrite fmap_cons, not_elem_of_cons in Hk. destruct Hk as [Hx Hk].
    rewrite fmap_cons, IHk by done. unfold rewritten.
    by rewrite bool_decide_eq_false_2. }
  case_decide as Hmarked.
  - intros [= -> Hrest]. rewrite Hkeep by done.
    unfold rewritten. rewrite bool_decide_eq_true_2 by done.
    rewrite filter_cons, decide_True by apply marked_full_body. by rewrite Hrest.
  - intros Hfilter.
    assert (Hin : c0 ∈ l).
    { assert (c0 ∈ filter is_marked l) as Hc0 by (rewrite Hfilter; set_solver).
      by apply list_elem_of_filter in Hc0 as [_ ?]. }
    assert (Hne : comment_id c ≠ comment_id c0).
    { intros Heq. apply Hc. rewrite Heq. by apply list_elem_of_fmap_2. }
    unfold rewritten at 1. rewrite bool_decide_eq_false_2 by done.
    rewrite filter_cons, decide_False by done. auto.
Qed.

Lemma comments_on_edited (σ : state) (id next : Z) (body : string) (number : Z) :
  comments_on (set_comments σ (edit id body <$> stored_comments σ) next) number
    = rewritten id body <$> comments_on σ number.
Proof.
  unfold comments_on. cbn [stored_comments set_comments].
  induction (stored_comments σ) as [|c cs IH]; [done|].
  rewrite fmap_cons, !filter_cons.
  assert (Hissue : sc_issue (edit id body c) = sc_issue c)
    by (unfold edit; by case_bool_decide).
  rewrite Hissue. case_decide; [|done]. rewrite !fmap_cons, IH. f_equal.
  unfold edit, rewritten, shown. cbn. by case_bool_decide.
Qed.

Lemma comments_on_created (σ : state) (number : Z) (body : string) :
  comments_on
    (set_comments σ
       (stored_comments σ ++ [StoredComment number (next_comment_id σ) body])
       (next_comment_id σ + 1)) number
    = comments_on σ number ++ [Comment (next_comment_id σ) (Some body)].
Proof.
  unfold comments_on. cbn [stored_comments set_comments].
  rewrite filter_app, fmap_app, filter_cons, decide_True by done. done.
Qed.

(** The state [_upsert_comment] leaves on the reference platform. *)
Lemma upsert_final (repo : string) (number : Z) (body : string) (σ : state) :
  final (_upsert_comment (answering serve) repo number body σ) =
    match List.find marked (comments_on σ number) with
    | Some c0 =>
        if bool_decide (comment_id c0 ≠ 0)
        then (serve (UpdateComment (comment_id c0) (full_body body)) σ).2
        else (serve (CreateComment number (full_body body)) σ).2
    | None => (serve (CreateComment number (full_body body)) σ).2
    end.
Proof.
  apply (wp_final _ _ (λ σ', σ' = _)).
  unfold _upsert_comment, _bot_comment_id, _get, _patch, _post. cbv zeta.
  apply wp_bind, wp_bind.
  apply (wp_request serve repo (ListComments number)). intros reply σ1 [= <- <-].
  cbn [payload]. apply wp_ret.
  destruct (List.find marked (comments_on σ number)) as [c0|]; cbn [fmap option_fmap option_map].
  - case_bool_decide.
    + apply wp_bind.
      apply (wp_request serve repo (UpdateComment (comment_id c0) (full_body body))).
      intros reply σ2 Hserve. apply wp_ret. by rewrite Hserve.
    + apply wp_bind.
      apply (wp_request serve repo (CreateComment number (full_body body))).
      intros reply σ2 Hserve. apply wp_ret. by rewrite Hserve.
  - apply wp_bind.
    apply (wp_request serve repo (CreateComment number (full_body body))).
    intros reply σ2 Hserve. apply wp_ret. by rewrite Hserve.
Qed.

Lemma ids_comments_on (σ : state) (number : Z) :
  comment_id <$> comments_on σ number
    = sc_id <$> filter (λ c, sc_issue c = number) (stored_comments σ).
Proof. unfold comments_on. by rewrite <- list_fmap_compose. Qed.

Lemma ids_rewritten (id : Z) (body : string) (l : list comment) :
  comment_id <$> (rewritten id body <$> l) = comment_id <$> l.
Proof.
  induction l as [|c l IH]; [done|]. rewrite !fmap_cons, IH. f_equal.
  unfold rewritten. by case_bool_decide.
Qed.

Lemma ids_edited (id : Z) (body : string) (cs : list stored_comment) :
  sc_id <$> (edit id body <$> cs) = sc_id <$> cs.
Proof.
  induction cs as [|c cs IH]; [done|]. rewrite !fmap_cons, IH. f_equal.
  unfold edit. by case_bool_decide.
Qed.

(** The identifier of a listed comment is one of the stored ones. *)
Lemma listed_comment_stored (σ : state) (number : Z) (c : comment) :
  c ∈ comments_on σ number →
  ∃ sc, sc ∈ stored_comments σ ∧ sc_id sc = comment_id c.
Proof.
  unfold comments_on.
  intros (sc & -> & [_ Hin]%list_elem_of_filter)%list_elem_of_fmap. by exists sc.
Qed.

(** The first marked comment of a listing is the one with no marked
    comment before it. *)
Lemma find_marked_split (l : list comment) (c0 : comment) :
  List.find marked l = Some c0 ↔
  ∃ before after,
    l = before ++ c0 :: after ∧ Forall (λ c, ¬ is_marked c) before ∧ is_marked c0.
Proof.
  unfold is_marked. split.
  - induction l as [|c l IH]; [done|]. cbn [List.find].
    destruct (marked c) eqn:Hc.
    + intros [= <-]. by exists [], l.
    + intros (before & after & -> & Hbefore & Hc0)%IH.
      exists (c :: before), after. split; [done|]. split; [|done].
      constructor; [congruence|done].
  - intros (before & after & -> & Hbefore & Hc0).
    induction Hbefore as [|c before Hc _ IH]; cbn [List.find app].
    + by rewrite Hc0.
    + by rewrite (not_true_is_false _ Hc).
Qed.

Lemma find_marked_none (l : list comment) :
  List.find marked l = None ↔ Forall (λ c, ¬ is_marked c) l.
Proof.
  unfold is_marked. induction l as [|c l IH]; [done|]. cbn [List.find].
  rewrite Forall_cons. destruct (marked c); [|rewrite IH]; naive_solver.
Qed.

(** Rewriting one comment of a listing whose identifiers are distinct
    changes that comment and no other. *)
Lemma rewritten_split (before after : list comment) (c0 : comment) (body : string) :
  NoDup (comment_id <$> (before ++ c0 :: after)) →
  rewritten (comment_id c0) body <$> (before ++ c0 :: after)
    = before ++ Comment (comment_id c0) (Some body) :: after.
Proof.
  assert (Hkeep : ∀ k : list comment, comment_id c0 ∉ comment_id <$> k →
            rewritten (comment_id c0) body <$> k = k).
  { intros k Hk. induction k as [|x k IHk]; [done|].
    rewrite fmap_cons, not_elem_of_cons in Hk. destruct Hk as [Hx Hk].
    rewrite fmap_cons, IHk by done. unfold rewritten.
    by rewrite bool_decide_eq_false_2. }
  rewrite fmap_app, fmap_cons, NoDup_app, NoDup_cons.
  intros (_ & Hbefore & Hafter & _).
  rewrite fmap_app, fmap_cons, !Hkeep; [|done|].
  - unfold rewritten at 1. by rewrite bool_decide_eq_true_2.
  - intros Hin. apply (Hbefore _ Hin). by left.
Qed.

(** The comments of the pull request after [_upsert_comment]: the first
    marked comment rewritten in place, or one comment more. *)
Lemma upsert_comments (repo : string) (number : Z) (body : string) (σ : state) :
  well_formed σ →
  let σ' := final (_upsert_comment (answering serve) repo number body σ) in
  comments_on σ' number =
    match List.find marked (comments_on σ number) with
    | Some c0 => rewritten (comment_id c0) (full_body body) <$> comments_on σ number
    | None =>
        comments_on σ number ++ [Comment (next_comment_id σ) (Some (full_body body))]
    end ∧
  well_formed σ'.
Proof.
  intros (Hnodup & Hids & Hnext). cbv zeta. rewrite upsert_final.
  destruct (List.find marked (comments_on σ number)) as [c0|] eqn:Hfind.
  - assert (Hin : c0 ∈ comments_on σ number).
    { apply find_marked_split in Hfind as (before & after & -> & _). set_solver. }
    destruct (listed_comment_stored _ _ _ Hin) as (sc & Hsc & Hid).
    assert (Hpos : 0 < comment_id c0 < next_comment_id σ).
    { rewrite <- Hid. by apply (proj1 (Forall_forall _ _) Hids). }
    rewrite bool_decide_eq_true_2 by lia. cbn [serve].
    rewrite bool_decide_eq_true_2
      by (rewrite <- Hid; by apply list_elem_of_fmap_2).
    cbn [snd]. rewrite comments_on_edited. split; [done|].
    unfold well_formed. cbn [stored_comments next_comment_id set_comments].
    rewrite ids_edited. split; [done|]. split; [|done].
    apply Forall_fmap. eapply Forall_impl; [exact Hids|].
    intros c Hc. cbv beta in Hc. unfold edit. cbn. case_bool_decide; cbn; lia.
  - cbn [serve snd]. rewrite comments_on_created. split; [done|].
    unfold well_formed. cbn [stored_comments next_comment_id set_comments].
    rewrite fmap_app. split; [|split; [|lia]].
    + apply NoDup_app. split; [done|]. split; [|apply NoDup_singleton].
      intros id (c & -> & Hc)%list_elem_of_fmap [= Heq]%list_elem_of_singleton.
      apply (proj1 (Forall_forall _ _) Hids) in Hc. cbn in Heq. lia.
    + apply Forall_app. split.
      * eapply Forall_impl; [exact Hids|]. intros c Hc. cbn in Hc |- *. lia.
      * apply Forall_singleton. cbn. lia.
Qed.

Lemma filter_unmarked (l : list comment) :
  Forall (λ c, ¬ is_marked c) l → filter is_marked l = [].
Proof.
  induction 1 as [|c l Hc _ IH]; [done|]. by rewrite filter_cons, decide_False.
Qed.

(** C5 (as amended): on the reference platform, which lists the comments
    of a pull request in full and carries out the write it is asked for,
    [_upsert_comment] does the following, however many comments carry the
    marker.  When some do, the first of them is rewritten in place: it
    keeps its identifier and its place, its body becomes the marker, a line
    feed and the body text, every other comment, marked or not, is as it
    was, and no comment is made.  When none does, one comment with the
    composed body is appended.  So the number of marked comments is the one
    before, or one if there was none; when at most one comment carried the
    marker beforehand, exactly one does afterwards, with the composed
    body. *)
Theorem upsert_converges (repo : string) (number : Z) (body : string) (σ : state) :
  well_formed σ →
  let σ' := final (_upsert_comment (answering serve) repo number body σ) in
  let composed := _BOT_COMMENT_MARKER +:+ LF +:+ body in
  (∀ before c0 after,
     comments_on σ number = before ++ c0 :: after →
     Forall (λ c, ¬ is_marked c) before → is_marked c0 →
     comments_on σ' number
       = before ++ Comment (comment_id c0) (Some composed) :: after) ∧
  (Forall (λ c, ¬ is_marked c) (comments_on σ number) →
     comments_on σ' number
       = comments_on σ number ++ [Comment (next_comment_id σ) (Some composed)]) ∧
  length (filter is_marked (comments_on σ' number))
    = (1 `max` length (filter is_marked (comments_on σ number)))%nat ∧
  ((length (filter is_marked (comments_on σ number)) ≤ 1)%nat →
     ∃ id, filter is_marked (comments_on σ' number) = [Comment id (Some composed)]) ∧
  well_formed σ'.
Proof.
  intros Hwf. cbv zeta. fold (full_body body).
  destruct (upsert_comments repo number body σ Hwf) as [Hafter Hwf'].
  cbv zeta in Hafter, Hwf'. rewrite Hafter. clear Hafter.
  destruct Hwf as (Hnodup & _ & _).
  assert (Hl : NoDup (comment_id <$> comments_on σ number))
    by (rewrite ids_comments_on; by apply NoDup_fmap_filter).
  destruct (List.find marked (comments_on σ number)) as [c0|] eqn:Hfind.
  - pose proof Hfind as (before & after & Hsplit & Hbefore & Hc0)%find_marked_split.
    rewrite Hsplit in Hl |- *. rewrite rewritten_split by done.
    assert (Hcount : ∀ c, is_marked c →
              filter is_marked (before ++ c :: after) = c :: filter is_marked after).
    { intros c Hc. by rewrite filter_app, filter_unmarked, filter_cons, decide_True. }
    rewrite !Hcount by (done || apply marked_full_body). cbn [length].
    split; [|split; [|split; [lia|split; [|done]]]].
    + intros before' c1 after' Hsplit' Hbefore' Hc1.
      assert (List.find marked (before' ++ c1 :: after') = Some c1) as Hfind'
        by (apply find_marked_split; by exists before', after').
      rewrite <- Hsplit' in Hfind'.
      assert (List.find marked (before ++ c0 :: after) = Some c0) as Hfind0
        by (apply find_marked_split; by exists before, after).
      assert (c1 = c0) as -> by congruence.
      rewrite <- (rewritten_split before' after') by (by rewrite <- Hsplit').
      rewrite <- Hsplit'. by rewrite rewritten_split.
    + intros Hnone%find_marked_none. rewrite <- Hsplit, Hfind in Hnone. discriminate.
    + intros Hone. exists (comment_id c0). cbn [length] in Hone.
      destruct (filter is_marked after); [done|cbn in Hone; lia].
  - apply find_marked_none in Hfind as Hnone.
    rewrite filter_app, (filter_unmarked _ Hnone), filter_cons,
      decide_True by apply marked_full_body.
    split; [|split; [done|split; [done|split; [by exists (next_comment_id σ)|done]]]].
    intros before c0 after Hsplit Hbefore Hc0. exfalso.
    assert (List.find marked (comments_on σ number) = Some c0) as Hfind'
      by (apply find_marked_split; by exists before, after).
    congruence.
Qed.

(** Pull request 7 of the scenario has one marked comment, number 2; the
    upsert rewrites it and makes none. *)
Lemma upsert_converges_witness :
  ∃ id,
    filter is_marked
      (comments_on (final (_upsert_comment (answering serve) "o/r" 7 "status" Scenario.busy)) 7)
    = [Comment id (Some (_BOT_COMMENT_MARKER +:+ LF +:+ "status"))].
Proof.
  destruct (upsert_converges "o/r" 7 "status" Scenario.busy) as (_ & _ & _ & Hone & _);
    [by_evaluation|].
  apply Hone. by_evaluation.
Defined.

(** C5 (as stated) fails: when two comments of the pull request carry the
    marker, the upsert rewrites the first and leaves the second, so two
    marked comments remain, on a platform whose listing is complete and
    whose identifiers are distinct. *)
Lemma upsert_keeps_second_marked_comment :
  well_formed Scenario.twice_marked ∧
  filter is_marked
    (comments_on
       (final (_upsert_comment (answering serve) "o/r" 7 "status" Scenario.twice_marked)) 7)
  = [Comment 1 (Some (_BOT_COMMENT_MARKER +:+ LF +:+ "status"));
     Comment 2 (Some (_BOT_COMMENT_MARKER +:+ LF +:+ "second"))].
Proof. split; [by_evaluation|by vm_compute]. Qed.

End CommentUpsert.

(** ** Runs of the whole agent *)

Module Runs.
Import GitHub.

(** Pull request 7 as page 1 of the scenario lists it. *)
Definition pr7 : pull :=
  Pull 7 "Add parser" "0123456789abcdef" (Some ["auto-merge"; "ci-failing"]).

(** Every call is answered with a 503: handling a pull request returns all
    the same, and the run ends at the failed page of the listing. *)
Lemma failures_do_not_abort_witness :
  outcome_of (_handle_pr (answering Scenario.unavailable) "octocat/hello-world" pr7 tt)
    = Returned tt ∧
  None ∈ listed_pages
           (events (main (answering Scenario.unavailable) "token" "octocat/hello-world"
                      1%nat tt)).
Proof.
  destruct (failures_do_not_abort (answering Scenario.unavailable) "token"
              "octocat/hello-world" 1%nat tt)
    as (_ & _ & _ & _ & _ & _ & Hanswered & Hmain); [done..|].
  split; [|apply Hmain].
  apply (Hanswered (λ q σ0, ex_intro _ _ eq_refl) pr7 []).
Defined.

(** C6 (as stated) fails, in two ways.  With both configuration values
    set, a failed first page of the open-PR list makes [main] leave through
    [sys.exit(1)], after the message "Failed to fetch open PRs." and before
    any pull request is handled; the failed label calls before it did not
    stop the run.  And without a connection the first call raises, which
    ends the run there. *)
Lemma failed_listing_aborts :
  let r := main (answering Scenario.unavailable) "token" "octocat/hello-world" 1%nat tt in
  let r' := main Scenario.offline "token" "octocat/hello-world" 1%nat tt in
  outcome_of r = Exited 1 ∧
  listed_pages (events r) = [None] ∧
  last (events r) = Some (Stderr "Failed to fetch open PRs.") ∧
  calls (events r)
    = [GetLabel "ci-passing"; CreateLabel "ci-passing" "0e8a16";
       GetLabel "ci-failing"; CreateLabel "ci-failing" "d73a4a";
       GetLabel "needs-review"; CreateLabel "needs-review" "e4e669";
       ListOpenPulls 1] ∧
  outcome_of r' = Raised (URLError "Connection refused") ∧
  events r'
    = [Stdout "PR Agent running for octocat/hello-world";
       Uncaught (GetLabel "ci-passing") (URLError "Connection refused")].
Proof. cbv zeta. repeat split; by vm_compute. Qed.

(** On the scenario the merge of pull request 7 is asked for and granted,
    and the report that follows says so. *)
Lemma merge_outcome_reported_witness :
  match since_merge (events (_handle_pr (answering serve) "o/r" pr7 Scenario.busy)) with
  | Some (n, reply, rest) =>
      reports_merged (payload reply) ∧
      rest = http_log "o/r" (PutMerge n "squash" (commit_title n "Add parser")) reply
             ++ [Stdout ("    PR #" +:+ pretty n +:+ " merged successfully.")]
  | None => False
  end.
Proof.
  destruct (since_merge (events (_handle_pr (answering serve) "o/r" pr7 Scenario.busy)))
    as [[[n reply] rest]|] eqn:Hsince; [|by vm_compute in Hsince].
  assert (Hmerged : reports_merged (payload reply)).
  { vm_compute in Hsince. injection Hsince as _ <- _. by eexists. }
  split; [done|].
  destruct (merge_outcome_reported (answering serve) "o/r" pr7 Scenario.busy)
    as [Hanswered _].
  destruct (Hanswered n reply rest Hsince) as (_ & Hreport & _).
  by apply Hreport.
Defined.

(** The reference platform behind a transport on which a merge request
    times out. *)
Definition merge_times_out (q : request) (σ : state) : response (answer q) * state :=
  match q with
  | PutMerge _ _ _ => (Failed TimeoutError, σ)
  | _ => (Answered (serve q σ).1, (serve q σ).2)
  end.

(** C9 (as stated) fails: when the merge request of pull request 7 gets no
    answer, handling it raises; the last event is the call, no line reports
    the outcome, and the run of [main] ends there, before pull request 8,
    whose check runs are never asked for. *)
Lemma merge_without_answer_raises :
  let q := PutMerge 7 "squash" "Auto-merge PR #7: Add parser" in
  let handled := _handle_pr merge_times_out "o/r" pr7 Scenario.busy in
  let r := main merge_times_out "token" "o/r" 1%nat Scenario.busy in
  outcome_of handled = Raised TimeoutError ∧
  last (events handled) = Some (Uncaught q TimeoutError) ∧
  since_merge (events handled) = None ∧
  listed_pages (events r) = [Some (page_of 1 Scenario.busy)] ∧
  length (page_of 1 Scenario.busy) = 2%nat ∧
  outcome_of r = Raised TimeoutError ∧
  last (events r) = Some (Uncaught q TimeoutError) ∧
  calls (events r)
    = [GetLabel "ci-passing"; CreateLabel "ci-passing" "0e8a16";
       GetLabel "ci-failing";
       GetLabel "needs-review"; CreateLabel "needs-review" "e4e669";
       ListOpenPulls 1;
       GetCheckRuns "0123456789abcdef";
       RemoveLabel 7 "ci-failing"; AddLabels 7 ["ci-passing"];
       ListComments 7;
       UpdateComment 2
         (_BOT_COMMENT_MARKER +:+ LF
          +:+ status_comment 7 "0123456789abcdef" passing "ci-passing");
       q].
Proof. cbv zeta. repeat split; by vm_compute. Qed.

(** *** A comment listing that fails once *)

(** A platform that is the reference platform except that the next comment
    listing fails, once. *)
Definition flaky (q : request) (σ : bool * state)
    : http_reply (answer q) * (bool * state) :=
  match q, σ.1 with
  | ListComments _, true => (HttpError 502 "Bad Gateway", (false, σ.2))
  | _, _ => ((serve q σ.2).1, (σ.1, (serve q σ.2).2))
  end.

(** How two marked comments come about: the listing fails, the agent takes
    the pull request to have no bot comment and makes a second one. *)
Lemma failed_listing_duplicates_comment :
  filter CommentUpsert.is_marked
    (comments_on
       (final (_upsert_comment (answering flaky) "o/r" 7 "status" (true, Scenario.busy))).2
       7)
  = [Comment 2 (Some (_BOT_COMMENT_MARKER +:+ LF +:+ "old status"));
     Comment 3 (Some (_BOT_COMMENT_MARKER +:+ LF +:+ "status"))].
Proof. by vm_compute. Qed.

(** *** The run on the reference platform comes to an end *)

Lemma length_page_of (page : Z) (σ : state) :
  length (page_of page σ)
    = (100 `min` (length (pulls σ) - 100 * (Z.to_nat page - 1)))%nat.
Proof. unfold page_of. by rewrite length_fmap, length_take, length_drop. Qed.

(** The pagination loop returns as soon as the fuel covers the pages left. *)
Lemma fetch_open_prs_returns (repo : string) (fuel : nat) (page : Z)
    (prs : list pull) (σ : state) :
  1 ≤ page →
  (length (pulls σ) - 100 * (Z.to_nat page - 1) < 100 * fuel)%nat →
  ∃ prs' evs,
    fetch_open_prs (answering serve) repo fuel page prs σ = Run (Returned prs') σ evs.
Proof.
  revert page prs. induction fuel as [|fuel IH]; intros page prs Hpage Hfuel; [lia|].
  cbn [fetch_open_prs]. unfold _get.
  rewrite (bind_returned _ _ σ σ (Some (page_of page σ))
             [Call (ListOpenPulls page) (Ok2xx (Some (page_of page σ)))])
    by (by rewrite _request_run).
  case_bool_decide as Hshort.
  - eexists _, _. reflexivity.
  - rewrite length_page_of in Hshort.
    destruct (IH (page + 1) (prs ++ page_of page σ)) as (prs' & evs & Hrec); [lia..|].
    rewrite Hrec. eexists _, _. reflexivity.
Qed.

Lemma ensure_label_keeps_pulls (repo label color : string) (σ : state) :
  wp (_ensure_label_exists (answering serve) repo label color) σ
    (λ _ σ' _, pulls σ' = pulls σ).
Proof.
  unfold _ensure_label_exists, _get, _post. apply wp_bind.
  apply (wp_request serve repo (GetLabel label)). intros reply σ1 Hserve.
  assert (Hσ1 : pulls σ1 = pulls σ)
    by (cbn in Hserve; case_bool_decide; by injection Hserve as <- <-).
  destruct (payload reply); [by apply wp_ret|]. apply wp_bind.
  apply (wp_request serve repo (CreateLabel label color)). intros reply2 σ2 Hserve2.
  apply wp_ret. rewrite <- Hσ1.
  cbn in Hserve2. case_bool_decide; by injection Hserve2 as <- <-.
Qed.

(** With both configuration values set, [main] returns on the reference
    platform once the fuel covers the pages of the listing. *)
Lemma main_returns (token repo : string) (fuel : nat) (σ : state) :
  token ≠ "" → repo ≠ "" → (length (pulls σ) < 100 * fuel)%nat →
  outcome_of (main (answering serve) token repo fuel σ) = Returned tt.
Proof.
  intros Htoken Hrepo Hfuel. unfold main.
  rewrite !bool_decide_eq_false_2 by done.
  rewrite (bind_returned _ _ σ σ tt [Stdout ("PR Agent running for " +:+ repo)]) by done.
  destruct (ensure_label_keeps_pulls repo _LABEL_PASSING "0e8a16" σ)
    as ([] & σ1 & e1 & Hrun1 & Hp1).
  rewrite (bind_returned _ _ _ _ _ _ Hrun1).
  destruct (ensure_label_keeps_pulls repo _LABEL_FAILING "d73a4a" σ1)
    as ([] & σ2 & e2 & Hrun2 & Hp2).
  rewrite (bind_returned _ _ _ _ _ _ Hrun2).
  destruct (ensure_label_keeps_pulls repo _LABEL_NEEDS_REVIEW "e4e669" σ2)
    as ([] & σ3 & e3 & Hrun3 & Hp3).
  rewrite (bind_returned _ _ _ _ _ _ Hrun3).
  destruct (fetch_open_prs_returns repo fuel 1 [] σ3) as (prs & e4 & Hrun4);
    [done|rewrite Hp3, Hp2, Hp1; lia|].
  rewrite (bind_returned _ _ _ _ _ _ Hrun4).
  rewrite (bind_returned _ _ σ3 σ3 tt
             [Stdout ("Found " +:+ pretty (length prs) +:+ " open PR(s).")]) by done.
  destruct (for_each_handle_pr serve repo prs σ3) as ([] & σ5 & e5 & Hrun5 & _).
  rewrite (bind_returned _ _ _ _ _ _ Hrun5). reflexivity.
Qed.

End Runs.

(** * Further properties of the code *)

(** ** Verdicts of the classifier *)

Module Verdicts.
Import Classifier.

(** The verdict on a non-empty list of completed runs, by cases on its
    conclusion set. *)
Lemma classify_cases (runs : list check_run) :
  (runs = [] ∨ ¬ Forall completed runs) ∧ classify runs = pending ∨
  runs ≠ [] ∧ Forall completed runs ∧
    (conclusions runs = ∅ ∧ classify runs = pending ∨
     conclusions runs ∩ HARD_FAILURES ≠ ∅ ∧ classify runs = failing ∨
     conclusions runs ≠ ∅ ∧ conclusions runs ∩ HARD_FAILURES = ∅ ∧
       conclusions runs ⊆ GREEN ∧ classify runs = passing ∨
     conclusions runs ≠ ∅ ∧ conclusions runs ∩ HARD_FAILURES = ∅ ∧
       ¬ conclusions runs ⊆ GREEN ∧ classify runs = pending).
Proof.
  destruct (decide (runs = [])) as [->|Hne]; [left; by split; [left|]|].
  destruct (decide (Forall completed runs)) as [Hall|Hnot].
  - right. split; [done|]. split; [done|]. rewrite classify_completed by done.
    case_bool_decide as Hempty; [by left|]. right.
    case_bool_decide as Hhard; [by left|]. right.
    assert (conclusions runs ∩ HARD_FAILURES = ∅) as Hsoft
      by (destruct (decide (conclusions runs ∩ HARD_FAILURES = ∅)); done).
    case_bool_decide as Hgreen; [by left|by right].
  - left. split; [by right|]. unfold classify.
    rewrite bool_decide_eq_false_2 by done.
    assert (existsb (λ r, bool_decide (run_status r ≠ Some "completed")) runs = true)
      as ->; [|done].
    apply not_all_completed. apply not_Forall_Exists in Hnot; [|apply _].
    apply Exists_exists in Hnot as (r & Hin & Hr). by exists r.
Qed.

(** X1: [classify] answers [passing] exactly when every run is completed,
    some run has a non-empty conclusion, and every non-empty conclusion is
    one of success, neutral and skipped. *)
Theorem passing_iff (runs : list check_run) :
  classify runs = passing ↔
    Forall completed runs ∧
    (∃ r c, r ∈ runs ∧ run_conclusion r = Some c ∧ c ≠ "") ∧
    (∀ r c, r ∈ runs → run_conclusion r = Some c →
       c = "" ∨ c = "success" ∨ c = "neutral" ∨ c = "skipped").
Proof.
  assert (Hgreen : conclusions runs ⊆ GREEN ↔
            ∀ r c, r ∈ runs → run_conclusion r = Some c →
              c = "" ∨ c = "success" ∨ c = "neutral" ∨ c = "skipped").
  { unfold GREEN. split.
    - intros Hsub r c Hr Hc. destruct (decide (c = "")) as [|Hne]; [by left|right].
      assert (c ∈ conclusions runs) as Hin
        by (apply elem_of_conclusions; split; [done|by exists r]).
      apply Hsub in Hin. rewrite !elem_of_union, !elem_of_singleton in Hin. tauto.
    - intros Hall c (Hne & r & Hr & Hc)%elem_of_conclusions.
      rewrite !elem_of_union, !elem_of_singleton.
      destruct (Hall r c Hr Hc) as [?|?]; [done|tauto]. }
  assert (Hsome : conclusions runs ≠ ∅ ↔
            ∃ r c, r ∈ runs ∧ run_conclusion r = Some c ∧ c ≠ "").
  { split.
    - intros (c & Hin)%set_choose_L.
      apply elem_of_conclusions in Hin as (Hne & r & Hr & Hc). by exists r, c.
    - intros (r & c & Hr & Hc & Hne) Hempty.
      assert (c ∈ conclusions runs) as Hin
        by (apply elem_of_conclusions; split; [done|by exists r]).
      rewrite Hempty in Hin. by apply not_elem_of_empty in Hin. }
  rewrite <- Hgreen, <- Hsome.
  destruct (classify_cases runs)
    as [[Hbad ->]|(Hne & Hall & [[He ->]|[[Hh ->]|[(Hn & Hs & Hg & ->)|(Hn & Hs & Hg & ->)]]])].
  - split; [done|]. intros (Hall & Hn & _). destruct Hbad as [->|Hbad]; [|done].
    exfalso. by apply Hn.
  - split; [done|]. by intros (_ & Hn & _).
  - split; [done|]. intros (_ & _ & Hg). by rewrite (green_not_hard _ Hg) in Hh.
  - done.
  - split; [done|]. by intros (_ & _ & ?).
Qed.

(** X2: [classify] answers [failing] exactly when every run is completed
    and some run concluded with failure, timed_out or cancelled. *)
Theorem failing_iff (runs : list check_run) :
  classify runs = failing ↔
    Forall completed runs ∧
    ∃ r c, r ∈ runs ∧ run_conclusion r = Some c ∧
      (c = "failure" ∨ c = "timed_out" ∨ c = "cancelled").
Proof.
  assert (Hhard : conclusions runs ∩ HARD_FAILURES ≠ ∅ ↔
            ∃ r c, r ∈ runs ∧ run_conclusion r = Some c ∧
              (c = "failure" ∨ c = "timed_out" ∨ c = "cancelled")).
  { unfold HARD_FAILURES. split.
    - intros (c & Hboth)%set_choose_L.
      apply elem_of_intersection in Hboth as [Hc Hin].
      apply elem_of_conclusions in Hc as (_ & r & Hr & Hc).
      rewrite !elem_of_union, !elem_of_singleton in Hin. exists r, c. tauto.
    - intros (r & c & Hr & Hc & Hin) Hempty.
      assert (c ∈ conclusions runs) as Hcin.
      { apply elem_of_conclusions. split; [|by exists r].
        by destruct Hin as [->|[->| ->]]. }
      assert (c ∈ conclusions runs ∩ {[ "failure"; "timed_out"; "cancelled" ]}) as Hboth.
      { apply elem_of_intersection. split; [done|].
        rewrite !elem_of_union, !elem_of_singleton. tauto. }
      rewrite Hempty in Hboth. by apply not_elem_of_empty in Hboth. }
  rewrite <- Hhard.
  destruct (classify_cases runs)
    as [[Hbad ->]|(Hne & Hall & [[He ->]|[[Hh ->]|[(Hn & Hs & Hg & ->)|(Hn & Hs & Hg & ->)]]])].
  - split; [done|]. intros (Hall & Hh). destruct Hbad as [->|Hbad]; [|done].
    exfalso. apply Hh. set_solver.
  - split; [done|]. intros (_ & Hh). exfalso. apply Hh. rewrite He. set_solver.
  - done.
  - split; [done|]. by intros (_ & ?).
  - split; [done|]. by intros (_ & ?).
Qed.

(** X3: the verdict depends on the runs as a set: two lists with the same
    members, in any order and with any repetition, get the same verdict. *)
Theorem classify_same_runs (runs1 runs2 : list check_run) :
  (∀ r, r ∈ runs1 ↔ r ∈ runs2) → classify runs1 = classify runs2.
Proof.
  intros Hsame.
  assert (Hnil : bool_decide (runs1 = []) = bool_decide (runs2 = [])).
  { apply bool_decide_ext. split; intros ->.
    - destruct runs2 as [|r ?]; [done|]. exfalso.
      apply (not_elem_of_nil r), Hsame. by left.
    - destruct runs1 as [|r ?]; [done|]. exfalso.
      apply (not_elem_of_nil r), Hsame. by left. }
  assert (Hstatus :
    existsb (λ r, bool_decide (run_status r ≠ Some "completed")) runs1
    = existsb (λ r, bool_decide (run_status r ≠ Some "completed")) runs2).
  { apply eq_true_iff_eq. rewrite !not_all_completed.
    split; intros (r & Hr & Hs); exists r; by rewrite ?Hsame in *. }
  assert (Hconclusions : conclusions runs1 = conclusions runs2).
  { apply set_eq. intros c. rewrite !elem_of_conclusions.
    split; intros (Hne & r & Hr & Hc); (split; [done|]); exists r;
      by rewrite ?Hsame in *. }
  unfold classify. by rewrite Hnil, Hstatus, Hconclusions.
Qed.

Lemma classify_same_runs_witness :
  classify [run_ok "success"; run_ok "failure"]
  = classify [run_ok "failure"; run_ok "success"; run_ok "failure"].
Proof.
  apply classify_same_runs. intros r.
  rewrite !elem_of_cons, !elem_of_nil. tauto.
Defined.

End Verdicts.

(** ** The calls a procedure makes, on any platform *)

(** The call with which [_upsert_comment] writes, given what the listing
    returned (lines 147-150 and 156-159). *)
Definition comment_write (number : Z) (body : string)
    (listing : option (list comment)) : request :=
  match listing ≫= List.find marked with
  | Some c =>
      if bool_decide (comment_id c = 0)
      then CreateComment number (_BOT_COMMENT_MARKER +:+ LF +:+ body)
      else UpdateComment (comment_id c) (_BOT_COMMENT_MARKER +:+ LF +:+ body)
  | None => CreateComment number (_BOT_COMMENT_MARKER +:+ LF +:+ body)
  end.

(** A call that writes the bot comment of a pull request. *)
Definition writes_comment (number : Z) (body : string) (q : request) : Prop :=
  q = CreateComment number (_BOT_COMMENT_MARKER +:+ LF +:+ body) ∨
  ∃ id, id ≠ 0 ∧ q = UpdateComment id (_BOT_COMMENT_MARKER +:+ LF +:+ body).

Lemma comment_write_writes (number : Z) (body : string) (listing : option (list comment)) :
  writes_comment number body (comment_write number body listing).
Proof.
  unfold comment_write, writes_comment.
  destruct (listing ≫= List.find marked) as [c|]; [|by left].
  case_bool_decide; [by left|right]. by exists (comment_id c).
Qed.

(** What a run may ask of the platform: labels are provisioned, removed
    and added only among the CI-state labels, comments are written only
    with the marker in front, and merges are squashes. *)
Definition permitted (q : request) : Prop :=
  match q with
  | GetLabel label => label ∈ _CI_LABELS
  | CreateLabel name color =>
      name = _LABEL_PASSING ∧ color = "0e8a16" ∨
      name = _LABEL_FAILING ∧ color = "d73a4a" ∨
      name = _LABEL_NEEDS_REVIEW ∧ color = "e4e669"
  | RemoveLabel _ lbl => lbl ∈ _CI_LABELS
  | AddLabels _ lbls => ∃ lbl, lbls = [lbl] ∧ lbl ∈ _CI_LABELS
  | UpdateComment _ body | CreateComment _ body =>
      String.prefix _BOT_COMMENT_MARKER body = true
  | PutMerge _ method _ => method = "squash"
  | ListOpenPulls _ | GetCheckRuns _ | ListComments _ => True
  end.

Lemma label_map_ci (status : ci_state) : label_map status ∈ _CI_LABELS.
Proof. unfold _CI_LABELS. destruct status; cbn; set_solver. Qed.

Section Conversations.

Context {Σ : Type}.
Variable serve : ∀ q : request, Σ → http_reply (answer q) * Σ.
Variables _TOKEN _REPO : string.

Lemma ci_status_calls (sha : string) (σ : Σ) :
  wp (_ci_status (answering serve) _REPO sha) σ (λ _ _ evs, calls evs = [GetCheckRuns sha]).
Proof.
  unfold _ci_status, _get. apply wp_bind.
  apply (wp_request serve _REPO (GetCheckRuns sha)). intros reply σ1 _.
  destruct (payload reply); apply wp_ret; by rewrite calls_app, calls_request.
Qed.

Lemma upsert_comment_events (number : Z) (body : string) (σ : Σ) :
  wp (_upsert_comment (answering serve) _REPO number body) σ (λ _ _ evs,
    ∃ (reply : http_reply (answer (ListComments number))) (w : request)
      (reply2 : http_reply (answer w)),
      w = comment_write number body (payload reply) ∧
      evs = (Call (ListComments number) reply
               :: http_log _REPO (ListComments number) reply)
            ++ Call w reply2 :: http_log _REPO w reply2).
Proof.
  unfold _upsert_comment, _bot_comment_id, _get, _patch, _post. cbv zeta.
  apply wp_bind, wp_bind.
  apply (wp_request serve _REPO (ListComments number)). intros reply σ1 _.
  assert (Hid : ∀ Q : option Z → Σ → list event → Prop,
            Q (comment_id <$> (payload reply ≫= List.find marked)) σ1 [] →
            wp (match payload reply with
                | Some comments => mret (comment_id <$> List.find marked comments)
                | None => mret None
                end) σ1 Q).
  { intros Q HQ. destruct (payload reply); by apply wp_ret. }
  apply Hid. clear Hid.
  assert (Hwrite : ∀ w : request, w = comment_write number body (payload reply) →
            wp (_request (answering serve) _REPO w ≫= λ _, mret tt) σ1 (λ _ _ e2,
              ∃ (reply0 : http_reply (answer (ListComments number))) (w0 : request)
                (reply2 : http_reply (answer w0)),
                w0 = comment_write number body (payload reply0) ∧
                ((Call (ListComments number) reply
                    :: http_log _REPO (ListComments number) reply) ++ []) ++ e2
                = (Call (ListComments number) reply0
                     :: http_log _REPO (ListComments number) reply0)
                  ++ Call w0 reply2 :: http_log _REPO w0 reply2)).
  { intros w Hw. apply wp_bind. apply (wp_request serve _REPO w).
    intros reply2 σ2 _. apply wp_ret. exists reply, w, reply2.
    split; [done|]. by rewrite !app_nil_r. }
  unfold comment_write in Hwrite.
  destruct (payload reply ≫= List.find marked) as [c|];
    cbn [fmap option_fmap option_map].
  - destruct (decide (comment_id c = 0)) as [Hzero|Hzero].
    + rewrite (bool_decide_eq_false_2 (comment_id c ≠ 0)) by tauto.
      apply Hwrite. by rewrite bool_decide_eq_true_2.
    + rewrite (bool_decide_eq_true_2 (comment_id c ≠ 0)) by done.
      apply Hwrite. by rewrite bool_decide_eq_false_2.
  - by apply Hwrite.
Qed.

(** X4: [_upsert_comment] makes exactly two calls.  It lists the comments;
    when the listing came back and its first comment that contains the
    marker has a non-zero identifier, it rewrites that comment; in every
    other case (the listing failed, no comment contains the marker, or the
    identifier is 0) it makes a new comment.  The body it sends is the
    marker, a line feed and the text. *)
Theorem upsert_comment_conversation (number : Z) (body : string) (σ : Σ) :
  ∃ (reply : http_reply (list comment)) (w : request) (reply2 : http_reply (answer w)),
    events (_upsert_comment (answering serve) _REPO number body σ)
      = (Call (ListComments number) reply :: http_log _REPO (ListComments number) reply)
        ++ Call w reply2 :: http_log _REPO w reply2 ∧
    match payload reply ≫= List.find marked with
    | Some c =>
        comment_id c ≠ 0 ∧
          w = UpdateComment (comment_id c) (_BOT_COMMENT_MARKER +:+ LF +:+ body) ∨
        comment_id c = 0 ∧
          w = CreateComment number (_BOT_COMMENT_MARKER +:+ LF +:+ body)
    | None => w = CreateComment number (_BOT_COMMENT_MARKER +:+ LF +:+ body)
    end.
Proof.
  destruct (upsert_comment_events number body σ)
    as ([] & σ' & evs & -> & reply & w & reply2 & Hw & ->).
  exists reply, w, reply2.
  split; [done|]. rewrite Hw. unfold comment_write. clear Hw. cbn [answer] in *.
  destruct (payload reply ≫= List.find marked) as [c|]; [|done].
  case_bool_decide; [by right|by left].
Qed.

(** The calls of [_handle_pr], in order. *)
Lemma handle_pr_calls (pr : pull) (σ : Σ) :
  wp (_handle_pr (answering serve) _REPO pr) σ (λ _ _ evs,
    ∃ status σ1 e1 w,
      _ci_status (answering serve) _REPO (pr_head_sha pr) σ = Run (Returned status) σ1 e1 ∧
      writes_comment (pr_number pr)
        (status_comment (pr_number pr) (pr_head_sha pr) status (label_map status)) w ∧
      calls evs =
        GetCheckRuns (pr_head_sha pr)
        :: (RemoveLabel (pr_number pr)
              <$> elements (stale_labels (_current_labels pr) (label_map status)))
        ++ (if bool_decide (label_map status ∈ _current_labels pr) then []
            else [AddLabels (pr_number pr) [label_map status]])
        ++ [ListComments (pr_number pr); w]
        ++ (if bool_decide (status = passing)
               && bool_decide (_LABEL_AUTO_MERGE ∈ _current_labels pr)
            then [PutMerge (pr_number pr) "squash"
                    (commit_title (pr_number pr) (pr_title pr))]
            else [])).
Proof.
  unfold _handle_pr. cbv zeta.
  apply wp_bind, wp_emit. apply wp_bind.
  eapply wp_mono; [apply wp_run, ci_status_calls|].
  intros status σ1 e1 [Hrun Hci]. cbv beta.
  apply wp_bind, wp_emit. apply wp_bind.
  eapply wp_mono; [apply set_ci_label_calls|].
  intros [] σ2 e2 Hset. cbv beta. apply wp_bind.
  eapply wp_mono; [apply upsert_comment_events|].
  intros [] σ3 e3 (reply & w & reply2 & Hw & He3). cbv beta.
  assert (Hwrites : writes_comment (pr_number pr)
            (status_comment (pr_number pr) (pr_head_sha pr) status (label_map status)) w)
    by (rewrite Hw; apply comment_write_writes).
  assert (Hcalls3 : calls e3 = [ListComments (pr_number pr); w])
    by (by rewrite He3, calls_app, !calls_request).
  destruct (bool_decide (status = passing) && bool_decide (_ ∈ _)) eqn:Hgate.
  - apply wp_bind, wp_emit. apply wp_bind.
    apply (wp_request serve _REPO
             (PutMerge (pr_number pr) "squash"
                (commit_title (pr_number pr) (pr_title pr)))).
    intros reply4 σ4 _. cbv beta.
    destruct (payload reply4) as [[[[]|] message]|]; apply wp_emit;
      exists status, σ1, e1, w; (split; [done|]); (split; [done|]);
      rewrite Hgate, !calls_app, Hci, Hset, Hcalls3, calls_request;
      cbn; by rewrite <- ?(assoc_L (++)).
  - apply wp_ret. exists status, σ1, e1, w. split; [done|]. split; [done|].
    rewrite Hgate, !calls_app, Hci, Hset, Hcalls3. cbn.
    by rewrite <- ?(assoc_L (++)).
Qed.

(** X5: the calls of [_handle_pr] come in a fixed order, whatever the
    platform answers: the check runs of the head commit; one removal for
    each stale CI-state label and, when the label of the verdict is not yet
    on the pull request, its addition; the comment listing and one write of
    the bot comment; and last the squash merge, when the verdict is
    [passing] and [auto-merge] is among the labels. *)
Theorem handle_pr_conversation (pr : pull) (σ : Σ) :
  ∃ status w,
    outcome_of (_ci_status (answering serve) _REPO (pr_head_sha pr) σ) = Returned status ∧
    writes_comment (pr_number pr)
      (status_comment (pr_number pr) (pr_head_sha pr) status (label_map status)) w ∧
    calls (events (_handle_pr (answering serve) _REPO pr σ)) =
      GetCheckRuns (pr_head_sha pr)
      :: (RemoveLabel (pr_number pr)
            <$> elements ((_current_labels pr ∩ _CI_LABELS) ∖ {[ label_map status ]}))
      ++ (if bool_decide (label_map status ∈ _current_labels pr) then []
          else [AddLabels (pr_number pr) [label_map status]])
      ++ [ListComments (pr_number pr); w]
      ++ (if bool_decide (status = passing ∧ _LABEL_AUTO_MERGE ∈ _current_labels pr)
          then [PutMerge (pr_number pr) "squash"
                  ("Auto-merge PR #" +:+ pretty (pr_number pr) +:+ ": " +:+ pr_title pr)]
          else []).
Proof.
  destruct (handle_pr_calls pr σ)
    as ([] & σ' & evs & -> & status & σ1 & e1 & w & Hrun & Hw & Hcalls).
  exists status, w. rewrite Hrun. cbn [outcome_of events].
  split; [done|]. split; [done|].
  by rewrite Hcalls, stale_labels_alt, bool_decide_and.
Qed.

End Conversations.

(** ** Whole runs, on any transport *)

Section WholeRuns.

Context {Σ : Type}.
Variable urlopen : ∀ q : request, Σ → response (answer q) * Σ.
Variables _TOKEN _REPO : string.

(** *** What a whole run asks of the platform *)

(** [only_calls P m]: however [m] ends, every call it made satisfies [P]. *)
Definition only_calls {A} (P : request → Prop) (m : agent Σ A) : Prop :=
  ∀ σ, Forall P (calls (events (m σ))).

Lemma only_calls_bind {A B} P (m : agent Σ A) (f : A → agent Σ B) :
  only_calls P m → (∀ a, only_calls P (f a)) → only_calls P (m ≫= f).
Proof.
  intros Hm Hf σ. rewrite events_bind, calls_app. apply Forall_app_2; [apply Hm|].
  destruct (outcome_of (m σ)); [apply Hf|constructor..].
Qed.

Lemma only_calls_attempts {A} P (m : agent Σ A) :
  attempts urlopen P m → only_calls P m.
Proof. intros Hm σ. apply Hm. Qed.

Lemma only_calls_for_each {A} P (items : list A) (body : A → agent Σ unit) :
  (∀ x, only_calls P (body x)) → only_calls P (for_each items body).
Proof.
  intros Hbody. induction items as [|x items IH]; [intros σ; constructor|].
  cbn [for_each]. apply only_calls_bind; auto.
Qed.

Lemma only_calls_fetch_open_prs P (fuel : nat) (page : Z) (prs : list pull) :
  (∀ n, P (ListOpenPulls n)) → only_calls P (fetch_open_prs urlopen _REPO fuel page prs).
Proof.
  intros HP. revert page prs.
  induction fuel as [|fuel IH]; intros page prs; [intros σ; constructor|].
  cbn [fetch_open_prs]. apply only_calls_bind.
  - apply only_calls_attempts.
    by apply (attempts_request urlopen _REPO _ (ListOpenPulls page)).
  - intros [page_data|].
    + case_bool_decide; [intros σ; constructor|apply IH].
    + intros σ. constructor.
Qed.

Lemma handles_permitted (pr : pull) (q : request) : handles pr q → permitted q.
Proof.
  destruct q; cbn; try tauto.
  intros [_ (status & ->)]. exists (label_map status). split; [done|apply label_map_ci].
Qed.

Lemma permitted_handle_pr (pr : pull) :
  only_calls permitted (_handle_pr urlopen _REPO pr).
Proof.
  apply only_calls_attempts.
  eapply attempts_mono; [apply handles_permitted|apply attempts_handle_pr].
Qed.

(** X6: whatever becomes of its calls and however the run ends, [main]
    removes from and adds to a pull request only CI-state labels, so
    [auto-merge] and every other label are never touched; the only labels it
    looks up or creates are the three CI-state labels, with their colours;
    every comment it writes starts with the marker; and every merge it asks
    for is a squash. *)
Theorem main_only_permitted_calls (fuel : nat) (σ : Σ) :
  Forall permitted (calls (events (main urlopen _TOKEN _REPO fuel σ))) ∧
  ¬ permitted (RemoveLabel 0 _LABEL_AUTO_MERGE) ∧
  ¬ permitted (AddLabels 0 [_LABEL_AUTO_MERGE]).
Proof.
  assert (Hauto : _LABEL_AUTO_MERGE ∉ _CI_LABELS) by by_evaluation.
  split; [|split; [done|by intros (lbl & [= <-] & ?)]].
  assert (Hensure : ∀ label color,
            label ∈ _CI_LABELS → permitted (CreateLabel label color) →
            only_calls permitted (_ensure_label_exists urlopen _REPO label color))
    by (intros; by apply only_calls_attempts, attempts_ensure_label_exists).
  revert σ. fold (only_calls permitted (main urlopen _TOKEN _REPO fuel)). unfold main.
  repeat case_bool_decide;
    try (apply only_calls_bind; [|intros []]; intros σ; constructor).
  apply only_calls_bind; [intros σ; constructor|]. intros [].
  apply only_calls_bind; [apply Hensure; [by_evaluation|cbn; tauto]|]. intros [].
  apply only_calls_bind; [apply Hensure; [by_evaluation|cbn; tauto]|]. intros [].
  apply only_calls_bind; [apply Hensure; [by_evaluation|cbn; tauto]|]. intros [].
  apply only_calls_bind; [by apply only_calls_fetch_open_prs|]. intros prs.
  apply only_calls_bind; [intros σ; constructor|]. intros [].
  apply only_calls_bind; [|intros []; intros σ; constructor].
  apply only_calls_for_each, permitted_handle_pr.
Qed.

(** *** The pagination loop *)

(** X7: when the pagination loop of [main] returns, it has asked for the
    pages [page], [page + 1], ... in order, every page but the last came
    back with at least a hundred pull requests and the last with fewer, and
    the list it returns is the list it started with ([[]] in [main])
    followed by the pages it received, one after the other. *)
Theorem pagination_collects_pages (fuel : nat) (page : Z) (prs prs' : list pull) (σ : Σ) :
  outcome_of (fetch_open_prs urlopen _REPO fuel page prs σ) = Returned prs' →
  ∃ pages last,
    listed_pages (events (fetch_open_prs urlopen _REPO fuel page prs σ))
      = Some <$> (pages ++ [last]) ∧
    Forall (λ page_data, (100 ≤ length page_data)%nat) pages ∧
    (length last < 100)%nat ∧
    prs' = prs ++ concat (pages ++ [last]) ∧
    calls (events (fetch_open_prs urlopen _REPO fuel page prs σ))
      = (λ i, ListOpenPulls (page + Z.of_nat i)) <$> seq 0 (S (length pages)).
Proof.
  revert page prs σ. induction fuel as [|fuel IH]; intros page prs σ; [done|].
  cbn [fetch_open_prs]. rewrite outcome_bind, events_bind. unfold _get.
  rewrite _request_cases.
  destruct (urlopen (ListOpenPulls page) σ) as [[reply|exn] σ1];
    cbn [fst snd outcome_of events final]; [|done].
  assert (Hlisted : ∀ evs, listed_pages ((Call (ListOpenPulls page) reply
                      :: http_log _REPO (ListOpenPulls page) reply) ++ evs)
                    = payload reply :: listed_pages evs).
  { intros evs. rewrite listed_pages_app. cbn. by rewrite listed_pages_http_log. }
  rewrite Hlisted, calls_app, calls_request.
  destruct (payload reply) as [page_data|]; [|done].
  case_bool_decide as Hshort.
  - intros [= <-]. exists [], page_data. cbn.
    rewrite Z.add_0_r, !app_nil_r. repeat split; (done || constructor).
  - intros Hreturned.
    destruct (IH _ _ _ Hreturned) as (pages & last & -> & Hfull & Hlast & -> & ->).
    exists (page_data :: pages), last. split; [done|].
    split; [constructor; [lia|done]|]. split; [done|].
    split; [cbn; by rewrite (assoc_L (++))|].
    cbn [length].
    change (seq 0 (S (S (length pages)))) with (0%nat :: seq 1 (S (length pages))).
    rewrite fmap_cons, Z.add_0_r. cbn [app]. f_equal.
    rewrite <- fmap_S_seq, <- list_fmap_compose.
    apply list_fmap_ext. intros i x _. cbn. f_equal. lia.
Qed.

(** *** The configuration guard *)

(** X8: a run with an empty token or an empty repository name leaves
    through [sys.exit(1)] after one line on stderr, the token being
    checked first, and the platform is neither called nor changed; a run
    with both values set starts by looking up the label [ci-passing]. *)
Theorem main_configuration_guard (fuel : nat) (σ : Σ) :
  (_TOKEN = "" →
     main urlopen _TOKEN _REPO fuel σ
       = Run (Exited 1) σ [Stderr "GITHUB_TOKEN is not set — aborting."]) ∧
  (_TOKEN ≠ "" → _REPO = "" →
     main urlopen _TOKEN _REPO fuel σ
       = Run (Exited 1) σ [Stderr "GITHUB_REPOSITORY is not set — aborting."]) ∧
  (_TOKEN ≠ "" → _REPO ≠ "" →
     head (calls (events (main urlopen _TOKEN _REPO fuel σ)))
       = Some (GetLabel _LABEL_PASSING)).
Proof.
  unfold main. split; [|split].
  - intros Htoken. by rewrite bool_decide_eq_true_2.
  - intros Htoken Hrepo.
    by rewrite bool_decide_eq_false_2, bool_decide_eq_true_2.
  - intros Htoken Hrepo. rewrite !bool_decide_eq_false_2 by done.
    rewrite events_bind.
    cbn [events outcome_of final print emit app calls omap list_omap call_of].
    rewrite events_bind. unfold _ensure_label_exists at 1, _get.
    rewrite events_bind, _request_cases.
    by destruct (urlopen (GetLabel _LABEL_PASSING) σ).1.
Qed.

End WholeRuns.

(** The pagination loop on a platform whose first page is short. *)
Lemma pagination_collects_pages_witness :
  ∃ pages last,
    listed_pages
      (events (fetch_open_prs (answering GitHub.serve) "o/r" 1 1 [] Scenario.busy))
      = Some <$> (pages ++ [last]) ∧
    Forall (λ page_data, (100 ≤ length page_data)%nat) pages ∧
    (length last < 100)%nat ∧
    GitHub.page_of 1 Scenario.busy = [] ++ concat (pages ++ [last]) ∧
    calls (events (fetch_open_prs (answering GitHub.serve) "o/r" 1 1 [] Scenario.busy))
      = (λ i, ListOpenPulls (1 + Z.of_nat i)) <$> seq 0 (S (length pages)).
Proof.
  apply (pagination_collects_pages (answering GitHub.serve) "o/r" 1 1 []
           (GitHub.page_of 1 Scenario.busy) Scenario.busy).
  reflexivity.
Defined.

(** Without a token the run stops before it talks to the platform. *)
Lemma main_configuration_guard_witness :
  main (answering Scenario.unavailable) "" "octocat/hello-world" 1 tt
    = Run (Exited 1) tt [Stderr "GITHUB_TOKEN is not set — aborting."].
Proof.
  by apply (main_configuration_guard (answering Scenario.unavailable) ""
              "octocat/hello-world" 1%nat tt).
Defined.

(** ** The procedures on the reference platform *)

Module OnGitHub.
Import GitHub.

(** *** Label provisioning *)

Lemma ensure_label_run (repo label color : string) (σ : state) :
  _ensure_label_exists (answering serve) repo label color σ =
    if bool_decide (label ∈ registry σ)
    then Run (Returned tt) σ [Call (GetLabel label) (Ok2xx (Some tt))]
    else Run (Returned tt) (set_registry σ (registry σ ∪ {[ label ]}))
           ((Call (GetLabel label) (HttpError 404 "Not Found")
               :: http_log repo (GetLabel label) (HttpError 404 "Not Found"))
            ++ [Call (CreateLabel label color) (Ok2xx (Some tt))]).
Proof.
  unfold _ensure_label_exists, _get, _post.
  case_bool_decide as Hin.
  - rewrite (bind_returned _ _ σ σ (Some tt) [Call (GetLabel label) (Ok2xx (Some tt))]).
    + reflexivity.
    + rewrite _request_run. cbn [serve]. by rewrite bool_decide_eq_true_2.
  - rewrite (bind_returned _ _ σ σ None
               (Call (GetLabel label) (HttpError 404 "Not Found")
                  :: http_log repo (GetLabel label) (HttpError 404 "Not Found"))).
    + rewrite (bind_returned _ _ σ (set_registry σ (registry σ ∪ {[ label ]})) (Some tt)
                 [Call (CreateLabel label color) (Ok2xx (Some tt))]).
      * reflexivity.
      * rewrite _request_run. cbn [serve]. by rewrite bool_decide_eq_false_2.
    + rewrite _request_run. cbn [serve]. by rewrite bool_decide_eq_false_2.
Qed.

(** X9: on any platform [_ensure_label_exists] looks the label up and
    creates it, with the colour given, exactly when the lookup returned
    nothing.  On the reference platform the label is in the registry
    afterwards, no other label is gained or lost, and a second call only
    looks the label up and changes nothing. *)
Theorem label_provisioning (label color : string) :
  (∀ Σ (serve : ∀ q, Σ → http_reply (answer q) * Σ) (repo : string) (σ : Σ),
     calls (events (_ensure_label_exists (answering serve) repo label color σ))
       = GetLabel label
         :: (if payload (serve (GetLabel label) σ).1 is None
             then [CreateLabel label color] else [])) ∧
  (∀ (repo : string) (σ : state),
     let σ' := final (_ensure_label_exists (answering serve) repo label color σ) in
     registry σ' = registry σ ∪ {[ label ]} ∧
     _ensure_label_exists (answering serve) repo label color σ'
       = Run (Returned tt) σ' [Call (GetLabel label) (Ok2xx (Some tt))]).
Proof.
  split.
  - intros Σ serve repo σ. unfold _ensure_label_exists, _get, _post.
    rewrite events_bind, _request_run. cbn [events outcome_of final].
    rewrite calls_app, calls_request.
    destruct (payload (serve (GetLabel label) σ).1); [done|].
    rewrite events_bind, _request_run. cbn [events outcome_of final].
    by rewrite calls_app, calls_request.
  - intros repo σ. cbv zeta. rewrite (ensure_label_run repo label color σ).
    case_bool_decide as Hin; cbn [final].
    + split; [set_solver|]. by rewrite ensure_label_run, bool_decide_eq_true_2.
    + split; [done|]. rewrite ensure_label_run. cbn [registry set_registry].
      rewrite bool_decide_eq_true_2 by set_solver. done.
Qed.

(** *** The listing of the open pull requests *)

Lemma take_drop_page (page : Z) (σ : state) :
  page_of page σ
    = listed σ <$> take 100 (drop (100 * (Z.to_nat page - 1)) (pulls σ)).
Proof. reflexivity. Qed.

Lemma fetch_open_prs_complete (repo : string) (fuel : nat) (page : Z)
    (prs : list pull) (σ : state) :
  1 ≤ page →
  (length (pulls σ) - 100 * (Z.to_nat page - 1) < 100 * fuel)%nat →
  ∃ evs,
    fetch_open_prs (answering serve) repo fuel page prs σ
      = Run (Returned (prs ++ (listed σ <$> drop (100 * (Z.to_nat page - 1)) (pulls σ))))
            σ evs ∧
    length (calls evs)
      = ((length (pulls σ) - 100 * (Z.to_nat page - 1)) / 100 + 1)%nat.
Proof.
  revert page prs. induction fuel as [|fuel IH]; intros page prs Hpage Hfuel; [lia|].
  cbn [fetch_open_prs]. unfold _get.
  rewrite (bind_returned _ _ σ σ (Some (page_of page σ))
             [Call (ListOpenPulls page) (Ok2xx (Some (page_of page σ)))])
    by (by rewrite _request_run).
  set (k := (100 * (Z.to_nat page - 1))%nat) in *.
  assert (Hlen : length (page_of page σ) = (100 `min` (length (pulls σ) - k))%nat)
    by (rewrite take_drop_page; by rewrite length_fmap, length_take, length_drop).
  case_bool_decide as Hshort.
  - unfold mret, agent_ret. cbn [outcome_of final events].
    rewrite take_drop_page, take_ge by (rewrite length_drop; lia).
    eexists. split; [reflexivity|].
    rewrite Nat.div_small by lia. done.
  - destruct (IH (page + 1) (prs ++ page_of page σ)) as (evs & Hrec & Hcount); [lia..|].
    rewrite Hrec. cbn [outcome_of final events]. eexists. split.
    + f_equal. rewrite <- (assoc_L (++)). f_equal.
      rewrite take_drop_page, <- fmap_app. f_equal.
      replace (100 * (Z.to_nat (page + 1) - 1))%nat with (k + 100)%nat by lia.
      rewrite <- drop_drop. by rewrite take_drop.
    + rewrite calls_app, length_app, Hcount.
      replace (100 * (Z.to_nat (page + 1) - 1))%nat with (k + 100)%nat by lia.
      replace (length (pulls σ) - k)%nat
        with ((length (pulls σ) - (k + 100)) + 1 * 100)%nat by lia.
      rewrite Nat.div_add by lia. cbn [calls omap list_omap call_of length]. lia.
Qed.

(** X10: on the reference platform, with fuel for all the pages, the
    pagination loop of [main] returns every open pull request, once and in
    the order of the listing, after asking for one page more than there are
    full hundreds of them, and leaves the platform as it was. *)
Theorem listing_is_complete (repo : string) (fuel : nat) (σ : state) :
  (length (pulls σ) < 100 * fuel)%nat →
  ∃ evs,
    fetch_open_prs (answering serve) repo fuel 1 [] σ
      = Run (Returned (listed σ <$> pulls σ)) σ evs ∧
    length (calls evs) = (length (pulls σ) / 100 + 1)%nat.
Proof.
  intros Hfuel.
  destruct (fetch_open_prs_complete repo fuel 1 [] σ) as (evs & Hrun & Hcount);
    [lia|cbn; lia|].
  exists evs. cbn in Hrun, Hcount. rewrite Nat.sub_0_r in Hcount. by split.
Qed.

Lemma listing_is_complete_witness :
  ∃ evs,
    fetch_open_prs (answering serve) "o/r" 1 1 [] Scenario.busy
      = Run (Returned (listed Scenario.busy <$> pulls Scenario.busy))
            Scenario.busy evs ∧
    length (calls evs) = (length (pulls Scenario.busy) / 100 + 1)%nat.
Proof. apply listing_is_complete. cbn. lia. Defined.

(** *** A whole run *)

(** X11: on the reference platform, with both configuration values set and
    fuel for all the pages, [main] returns; it reports the number of open
    pull requests, starts handling every one of them, and ends with the
    line "PR Agent done.". *)
Theorem main_handles_every_pull (token repo : string) (fuel : nat) (σ : state) :
  token ≠ "" → repo ≠ "" → (length (pulls σ) < 100 * fuel)%nat →
  outcome_of (main (answering serve) token repo fuel σ) = Returned tt ∧
  Stdout ("Found " +:+ pretty (length (pulls σ)) +:+ " open PR(s).")
    ∈ events (main (answering serve) token repo fuel σ) ∧
  (∀ p, p ∈ pulls σ →
     Stdout ("  PR #" +:+ pretty (op_number p) +:+ ": " +:+ op_title p)
       ∈ events (main (answering serve) token repo fuel σ)) ∧
  last (events (main (answering serve) token repo fuel σ)) = Some (Stdout "PR Agent done.").
Proof.
  intros Htoken Hrepo Hfuel. unfold main.
  rewrite !bool_decide_eq_false_2 by done.
  rewrite (bind_returned _ _ σ σ tt [Stdout ("PR Agent running for " +:+ repo)]) by done.
  destruct (Runs.ensure_label_keeps_pulls repo _LABEL_PASSING "0e8a16" σ)
    as ([] & σ1 & e1 & Hrun1 & Hp1).
  rewrite (bind_returned _ _ _ _ _ _ Hrun1).
  destruct (Runs.ensure_label_keeps_pulls repo _LABEL_FAILING "d73a4a" σ1)
    as ([] & σ2 & e2 & Hrun2 & Hp2).
  rewrite (bind_returned _ _ _ _ _ _ Hrun2).
  destruct (Runs.ensure_label_keeps_pulls repo _LABEL_NEEDS_REVIEW "e4e669" σ2)
    as ([] & σ3 & e3 & Hrun3 & Hp3).
  rewrite (bind_returned _ _ _ _ _ _ Hrun3).
  assert (Hpulls : pulls σ3 = pulls σ) by congruence.
  destruct (fetch_open_prs_complete repo fuel 1 [] σ3) as (e4 & Hrun4 & _);
    [done|rewrite Hpulls; lia|].
  cbn in Hrun4. rewrite drop_0, Hpulls in Hrun4.
  rewrite (bind_returned _ _ _ _ _ _ Hrun4).
  set (found := Stdout ("Found " +:+ pretty (length (listed σ3 <$> pulls σ))
                        +:+ " open PR(s).")).
  rewrite (bind_returned _ _ σ3 σ3 tt [found]) by done.
  destruct (for_each_handle_pr serve repo (listed σ3 <$> pulls σ) σ3)
    as ([] & σ5 & e5 & Hrun5 & _ & Hseen).
  rewrite (bind_returned _ _ _ _ _ _ Hrun5).
  cbn [outcome_of events final print emit].
  split; [done|]. split; [|split].
  - rewrite !elem_of_app. do 5 right. left.
    apply list_elem_of_singleton. unfold found. by rewrite length_fmap.
  - intros p Hp. rewrite !elem_of_app. do 6 right. left.
    apply (Hseen (listed σ3 p)). by apply list_elem_of_fmap_2.
  - rewrite !(assoc_L (++)). apply last_snoc.
Qed.

Lemma main_handles_every_pull_witness :
  outcome_of (main (answering serve) "token" "o/r" 1 Scenario.busy) = Returned tt ∧
  Stdout ("Found " +:+ pretty (length (pulls Scenario.busy)) +:+ " open PR(s).")
    ∈ events (main (answering serve) "token" "o/r" 1 Scenario.busy) ∧
  (∀ p, p ∈ pulls Scenario.busy →
     Stdout ("  PR #" +:+ pretty (op_number p) +:+ ": " +:+ op_title p)
       ∈ events (main (answering serve) "token" "o/r" 1 Scenario.busy)) ∧
  last (events (main (answering serve) "token" "o/r" 1 Scenario.busy))
    = Some (Stdout "PR Agent done.").
Proof. apply main_handles_every_pull; [done|done|cbn; lia]. Defined.

(** *** Upserting twice *)

Import CommentUpsert.

(** One upsert from a state with at most one marked comment. *)
Lemma upsert_step (repo : string) (number : Z) (body : string) (σ : state) :
  well_formed σ →
  (length (filter is_marked (comments_on σ number)) ≤ 1)%nat →
  let σ' := final (_upsert_comment (answering serve) repo number body σ) in
  well_formed σ' ∧
  (∃ id, filter is_marked (comments_on σ' number)
           = [Comment id (Some (full_body body))]) ∧
  (∀ c0, filter is_marked (comments_on σ number) = [c0] →
     filter is_marked (comments_on σ' number)
       = [Comment (comment_id c0) (Some (full_body body))] ∧
     comment_id <$> comments_on σ' number = comment_id <$> comments_on σ number).
Proof.
  intros (Hnodup & Hids & Hnext) Hone. cbv zeta. rewrite upsert_final.
  destruct (List.find marked (comments_on σ number)) as [c0|] eqn:Hfind;
    rewrite find_marked in Hfind.
  - assert (Hfilter : filter is_marked (comments_on σ number) = [c0]).
    { destruct (filter is_marked (comments_on σ number)) as [|x [|y rest]];
        cbn in Hfind, Hone; [done|congruence|lia]. }
    assert (Hin : c0 ∈ comments_on σ number).
    { assert (c0 ∈ filter is_marked (comments_on σ number)) as Hc0
        by (rewrite Hfilter; set_solver).
      by apply list_elem_of_filter in Hc0 as [_ ?]. }
    destruct (listed_comment_stored _ _ _ Hin) as (sc & Hsc & Hid).
    assert (Hpos : 0 < comment_id c0 < next_comment_id σ).
    { rewrite <- Hid. by apply (proj1 (Forall_forall _ _) Hids). }
    rewrite bool_decide_eq_true_2 by lia. cbn [serve].
    rewrite bool_decide_eq_true_2
      by (rewrite <- Hid; by apply list_elem_of_fmap_2).
    cbn [snd]. rewrite comments_on_edited.
    assert (Hl : NoDup (comment_id <$> comments_on σ number))
      by (rewrite ids_comments_on; by apply NoDup_fmap_filter).
    assert (Hone' : filter is_marked
              (rewritten (comment_id c0) (full_body body) <$> comments_on σ number)
              = [Comment (comment_id c0) (Some (full_body body))])
      by (by apply rewrite_only_marked).
    split; [|split].
    + unfold well_formed. cbn [stored_comments next_comment_id set_comments].
      rewrite ids_edited. split; [done|]. split; [|done].
      apply Forall_fmap. eapply Forall_impl; [exact Hids|].
      intros c Hc. cbv beta in Hc. unfold edit. cbn. case_bool_decide; cbn; lia.
    + by exists (comment_id c0).
    + rewrite Hfilter. intros ? [= <-]. split; [done|apply ids_rewritten].
  - apply head_None in Hfind. cbn [serve snd]. rewrite comments_on_created.
    split; [|split].
    + unfold well_formed. cbn [stored_comments next_comment_id set_comments].
      rewrite fmap_app. split; [|split; [|lia]].
      * apply NoDup_app. split; [done|]. split; [|apply NoDup_singleton].
        intros id (c & -> & Hc)%list_elem_of_fmap [= Heq]%list_elem_of_singleton.
        apply (proj1 (Forall_forall _ _) Hids) in Hc. cbn in Heq. lia.
      * apply Forall_app. split.
        -- eapply Forall_impl; [exact Hids|]. intros c Hc. cbn in Hc |- *. lia.
        -- apply Forall_singleton. cbn. lia.
    + exists (next_comment_id σ).
      rewrite filter_app, Hfind, filter_cons, decide_True by apply marked_full_body.
      done.
    + rewrite Hfind. intros ? [=].
Qed.

(** X12: from a platform state in which at most one comment of the pull
    request contains the marker, upserting a first text and then a second
    leaves exactly one marked comment, whose body is the marker, a line feed
    and the second text.  The second upsert rewrites the comment the first
    one left, under the same identifier, and makes no comment. *)
Theorem upsert_twice (repo : string) (number : Z) (first second : string) (σ : state) :
  well_formed σ →
  (length (filter is_marked (comments_on σ number)) ≤ 1)%nat →
  let σ1 := final (_upsert_comment (answering serve) repo number first σ) in
  let σ2 := final (_upsert_comment (answering serve) repo number second σ1) in
  ∃ id,
    filter is_marked (comments_on σ1 number)
      = [Comment id (Some (_BOT_COMMENT_MARKER +:+ LF +:+ first))] ∧
    filter is_marked (comments_on σ2 number)
      = [Comment id (Some (_BOT_COMMENT_MARKER +:+ LF +:+ second))] ∧
    comment_id <$> comments_on σ2 number = comment_id <$> comments_on σ1 number.
Proof.
  intros Hwf Hone. cbv zeta.
  destruct (upsert_step repo number first σ Hwf Hone) as (Hwf1 & (id & Hone1) & _).
  exists id. split; [done|].
  assert (Hle : (length (filter is_marked
                   (comments_on (final (_upsert_comment (answering serve) repo number first σ))
                      number)) ≤ 1)%nat)
    by (rewrite Hone1; cbn; lia).
  destruct (upsert_step repo number second _ Hwf1 Hle) as (_ & _ & Hsame).
  by apply (Hsame _ Hone1).
Qed.

Lemma upsert_twice_witness :
  let σ1 := final (_upsert_comment (answering serve) "o/r" 8 "first" Scenario.busy) in
  let σ2 := final (_upsert_comment (answering serve) "o/r" 8 "second" σ1) in
  ∃ id,
    filter is_marked (comments_on σ1 8)
      = [Comment id (Some (_BOT_COMMENT_MARKER +:+ LF +:+ "first"))] ∧
    filter is_marked (comments_on σ2 8)
      = [Comment id (Some (_BOT_COMMENT_MARKER +:+ LF +:+ "second"))] ∧
    comment_id <$> comments_on σ2 8 = comment_id <$> comments_on σ1 8.
Proof. apply upsert_twice; by_evaluation. Defined.

(** *** The labels a handled pull request ends with *)

Lemma ci_status_on_platform (repo sha : string) (σ : state) :
  wp (_ci_status (answering serve) repo sha) σ (λ status σ' _,
    σ' = σ ∧ status = Classifier.classify (default [] (runs σ !! sha))).
Proof.
  unfold _ci_status, _get. apply wp_bind.
  apply (wp_request serve repo (GetCheckRuns sha)). intros reply σ1 [= <- <-].
  cbn [payload]. by apply wp_ret.
Qed.

Lemma upsert_keeps_labels (repo : string) (number : Z) (body : string) (σ : state) :
  wp (_upsert_comment (answering serve) repo number body) σ (λ _ σ' _,
    issue_labels σ' = issue_labels σ).
Proof.
  destruct (upsert_comment_events serve repo number body σ)
    as ([] & σ' & evs & Hrun & _).
  exists tt, σ', evs. split; [done|].
  pose proof (upsert_final repo number body σ) as Hfinal.
  rewrite Hrun in Hfinal. cbn [final] in Hfinal. rewrite Hfinal.
  destruct (List.find marked (comments_on σ number)) as [c0|];
    [case_bool_decide|]; cbn [serve]; try case_bool_decide; reflexivity.
Qed.

Lemma handle_pr_on_platform (repo : string) (pr : pull) (σ : state) :
  wp (_handle_pr (answering serve) repo pr) σ (λ _ σ' _,
    let target :=
      label_map (Classifier.classify (default [] (runs σ !! pr_head_sha pr))) in
    labels_on σ' (pr_number pr)
      = (labels_on σ (pr_number pr) ∖ stale_labels (_current_labels pr) target)
        ∪ (if bool_decide (target ∈ _current_labels pr) then ∅ else {[ target ]}) ∧
    ∀ other, other ≠ pr_number pr → labels_on σ' other = labels_on σ other).
Proof.
  unfold _handle_pr. cbv zeta.
  apply wp_bind, wp_emit. apply wp_bind.
  eapply wp_mono; [apply ci_status_on_platform|].
  intros status σ1 e1 [-> ->]. cbv beta.
  apply wp_bind, wp_emit. apply wp_bind.
  eapply wp_mono; [apply set_ci_label_on_platform|].
  intros [] σ2 e2 [Hhere Hothers]. cbv beta. apply wp_bind.
  eapply wp_mono; [apply upsert_keeps_labels|].
  intros [] σ3 e3 Hlabels. cbv beta.
  assert (Hsame : ∀ number, labels_on σ3 number = labels_on σ2 number)
    by (intros number; unfold labels_on; by rewrite Hlabels).
  destruct (bool_decide (_ = passing) && bool_decide (_ ∈ _)).
  - apply wp_bind, wp_emit. apply wp_bind.
    apply (wp_request serve repo
             (PutMerge (pr_number pr) "squash"
                (commit_title (pr_number pr) (pr_title pr)))).
    intros reply4 σ4 Hserve. cbv beta.
    assert (Hsame4 : ∀ number, labels_on σ4 number = labels_on σ2 number).
    { intros number. rewrite <- Hsame. cbn in Hserve.
      case_bool_decide; by injection Hserve as _ <-. }
    destruct (payload reply4) as [[[[]|] message]|]; apply wp_emit;
      (split; [by rewrite Hsame4|]); intros other Hne; rewrite Hsame4; auto.
  - apply wp_ret. split; [by rewrite Hsame|].
    intros other Hne. rewrite Hsame. auto.
Qed.

(** X13: on the reference platform, when the labels the pull request came
    with are the labels it carries, handling it leaves exactly one
    CI-state label on it, the one of the verdict on the check runs stored
    for its head commit; its other labels are as before, and so are the
    labels of every other pull request. *)
Theorem handle_pr_labels (repo : string) (pr : pull) (σ : state) :
  _current_labels pr = labels_on σ (pr_number pr) →
  let status := Classifier.classify (default [] (runs σ !! pr_head_sha pr)) in
  let σ' := final (_handle_pr (answering serve) repo pr σ) in
  labels_on σ' (pr_number pr) ∩ _CI_LABELS = {[ label_map status ]} ∧
  (∀ lbl, lbl ∉ _CI_LABELS →
     lbl ∈ labels_on σ' (pr_number pr) ↔ lbl ∈ labels_on σ (pr_number pr)) ∧
  (∀ other, other ≠ pr_number pr → labels_on σ' other = labels_on σ other).
Proof.
  intros Hsnapshot. cbv zeta.
  destruct (handle_pr_on_platform repo pr σ) as ([] & σ' & evs & -> & Hhere & Hothers).
  cbn [final]. cbv zeta in Hhere. rewrite Hsnapshot in Hhere.
  pose proof (label_map_ci
                (Classifier.classify (default [] (runs σ !! pr_head_sha pr)))) as Hci.
  revert Hhere Hci.
  generalize (label_map (Classifier.classify (default [] (runs σ !! pr_head_sha pr)))).
  generalize (labels_on σ' (pr_number pr)) (labels_on σ (pr_number pr)).
  intros after before target -> Hci. unfold stale_labels.
  split; [|split; [|done]].
  - case_bool_decide; set_solver.
  - intros lbl Hlbl. case_bool_decide; set_solver.
Qed.

(** Pull request 7 of the scenario goes from [ci-failing] to [ci-passing]. *)
Lemma handle_pr_labels_witness :
  let pr := listed Scenario.busy (OpenPull 7 "Add parser" "0123456789abcdef") in
  let status :=
    Classifier.classify (default [] (runs Scenario.busy !! pr_head_sha pr)) in
  let σ' := final (_handle_pr (answering serve) "o/r" pr Scenario.busy) in
  labels_on σ' (pr_number pr) ∩ _CI_LABELS = {[ label_map status ]}.
Proof.
  apply (handle_pr_labels "o/r"
           (listed Scenario.busy (OpenPull 7 "Add parser" "0123456789abcdef"))
           Scenario.busy).
  by_evaluation.
Defined.

End OnGitHub.
